(** * The weekly duty-rotation bot (main.py): model and properties

    The development embeds the rotation core of [main.py]: the roster
    loader, the rotator ([next_items], [advance_index],
    [get_list_with_advance]), the conflict resolver ([bump_one],
    [resolve_duplicates]), the week-mode switch ([is_special_week]), the
    composer ([compose_message]) and the persistence and command layer
    ([load_state], [save_state], [handle_message], [weekly_job], and the
    start-up block as [main]).

    Conventions.
    - A Python [str] is a Rocq [string] holding its UTF-8 encoding; equality,
      concatenation, [split(",")] and [strip()] commute with that encoding.
    - A roster file is the bytes it holds, or a file that cannot be read;
      reading it as text decodes the bytes as UTF-8, which can fail, and
      translates the newlines.
    - A Python [int] is a [Z]; [%] is [Z.modulo] (the result has the sign of
      the divisor, as in Python) and raises on a zero divisor.
    - A raised exception is the [Raise] case of [result].
    - The [state] dict is one mutable object handed from call to call; the
      functions that receive it live in the monad [M State], which threads
      that object and keeps it when an exception is raised. *)

From stdpp Require Import gmap strings list.
From Stdlib Require Import ZArith Lia.

Open Scope string_scope.
Open Scope Z_scope.

(** ** Exceptions and results *)

Inductive exn : Set :=
  | KeyError | IndexError | ValueError | ZeroDivisionError | TypeError
  | JSONDecodeError | OSError | UnicodeDecodeError.

Inductive result (A : Type) : Type :=
  | Ok (a : A)
  | Raise (e : exn).
Arguments Ok {A} a.
Arguments Raise {A} e.

#[global] Instance result_ret : MRet result := λ A a, Ok a.
#[global] Instance result_bind : MBind result := λ A B f r,
  match r with Ok a => f a | Raise e => Raise e end.

#[global] Instance exn_eq_dec : EqDecision exn.
Proof. solve_decision. Defined.

#[global] Instance result_eq_dec {A} `{EqDecision A} : EqDecision (result A).
Proof. solve_decision. Defined.

(** The state-and-exception monad: a computation over a mutable object of
    type [S]. The object survives an exception, as it does in Python. *)
Definition M (S A : Type) : Type := S → result A * S.

#[global] Instance M_ret {S} : MRet (M S) := λ A a s, (Ok a, s).
#[global] Instance M_bind {S} : MBind (M S) := λ A B f m s,
  match m s with
  | (Ok a, s') => f a s'
  | (Raise e, s') => (Raise e, s')
  end.

Definition lift {S A} (r : result A) : M S A := λ s, (r, s).
Definition get {S} : M S S := λ s, (Ok s, s).
Definition put {S} (s : S) : M S unit := λ _, (Ok tt, s).

(** ** Python values, lists and strings *)

(** The values a selection can hold: a name, or [None] (what [bump_one]
    returns for an empty pool). *)
Inductive pyval : Set :=
  | PyNone
  | PyStr (s : string).

#[global] Instance pyval_eq_dec : EqDecision pyval.
Proof. solve_decision. Defined.

#[global] Instance pyval_countable : Countable pyval.
Proof.
  refine (inj_countable'
    (λ v, match v with PyNone => None | PyStr s => Some s end)
    (λ o, match o with None => PyNone | Some s => PyStr s end) _).
  by intros [].
Defined.

(** [a % b] *)
Definition py_mod (a b : Z) : result Z :=
  if b =? 0 then Raise ZeroDivisionError else Ok (a `mod` b).

(** [l[i]], negative indices counting from the end. *)
Definition getitem {A} (l : list A) (i : Z) : result A :=
  let n := Z.of_nat (length l) in
  let j := if i <? 0 then i + n else i in
  if (0 <=? j) && (j <? n)
  then match l !! Z.to_nat j with Some x => Ok x | None => Raise IndexError end
  else Raise IndexError.

(** [l.index(x)] *)
Fixpoint index {A} `{EqDecision A} (l : list A) (x : A) : result Z :=
  match l with
  | [] => Raise ValueError
  | y :: l' => if decide (y = x) then Ok 0 else i ← index l' x; Ok (1 + i)
  end.

(** [sep.join(l)]: every item must be a [str]. *)
Fixpoint join (sep : string) (l : list pyval) : result string :=
  match l with
  | [] => Ok ""
  | PyNone :: _ => Raise TypeError
  | [PyStr s] => Ok s
  | PyStr s :: l' => r ← join sep l'; Ok (s +:+ sep +:+ r)
  end.

(** [f"{v}"] *)
Definition format (v : pyval) : string :=
  match v with PyNone => "None" | PyStr s => s end.

Definition nl : string := String (Ascii.ascii_of_N 10) "".

(** *** [str.strip] and [str.split] on UTF-8 text *)

Definition is_continuation (b : Ascii.ascii) : bool :=
  let n := Ascii.N_of_ascii b in ((128 <=? n) && (n <? 192))%N.

(** Cuts a UTF-8 string into its characters, each kept as its bytes. *)
Fixpoint utf8_group (s : string) : string * list string :=
  match s with
  | "" => ("", [])
  | String b s' =>
      let '(pend, cs) := utf8_group s' in
      if is_continuation b then (String b pend, cs)
      else ("", String b pend :: cs)
  end.

Definition utf8_chars (s : string) : list string :=
  let '(pend, cs) := utf8_group s in
  match pend with "" => cs | _ => pend :: cs end.

Definition chr_bytes (l : list N) : string :=
  foldr (λ n s, String (Ascii.ascii_of_N n) s) "" l.

(** The characters [str.isspace] accepts, by their UTF-8 bytes. *)
Definition whitespace : list string :=
  chr_bytes <$>
    [ [9]; [10]; [11]; [12]; [13]; [28]; [29]; [30]; [31]; [32];
      [194; 133]; [194; 160]; [225; 154; 128];
      [226; 128; 128]; [226; 128; 129]; [226; 128; 130]; [226; 128; 131];
      [226; 128; 132]; [226; 128; 133]; [226; 128; 134]; [226; 128; 135];
      [226; 128; 136]; [226; 128; 137]; [226; 128; 138];
      [226; 128; 168]; [226; 128; 169]; [226; 128; 175];
      [226; 129; 159]; [227; 128; 128] ]%N.

Definition isspace (c : string) : bool := bool_decide (c ∈ whitespace).

Fixpoint dropwhile {A} (p : A → bool) (l : list A) : list A :=
  match l with
  | [] => []
  | x :: l' => if p x then dropwhile p l' else l
  end.

(** [s.strip()] *)
Definition strip (s : string) : string :=
  String.concat ""
    (rev (dropwhile isspace (rev (dropwhile isspace (utf8_chars s))))).

(** [s.split(",")]; byte 44 is the comma. *)
Fixpoint split_comma (s : string) : list string :=
  match s with
  | "" => [""]
  | String c s' =>
      if Ascii.eqb c (Ascii.ascii_of_N 44) then "" :: split_comma s'
      else match split_comma s' with
           | h :: t => String c h :: t
           | [] => [String c ""]
           end
  end.

(** *** Reading a text file *)

(** What a lead byte announces: how many continuation bytes follow, and the
    range allowed for the first of them. The decoder is strict: no overlong
    form, no surrogate, nothing above U+10FFFF. *)
Definition utf8_lead (b : N) : option (nat * N * N) :=
  (if b <=? 127 then Some (0%nat, 0, 0)
   else if (194 <=? b) && (b <=? 223) then Some (1%nat, 128, 191)
   else if b =? 224 then Some (2%nat, 160, 191)
   else if b =? 237 then Some (2%nat, 128, 159)
   else if (225 <=? b) && (b <=? 239) then Some (2%nat, 128, 191)
   else if b =? 240 then Some (3%nat, 144, 191)
   else if (241 <=? b) && (b <=? 243) then Some (3%nat, 128, 191)
   else if b =? 244 then Some (3%nat, 128, 143)
   else None)%N.

(** The decoder as an automaton over the bytes: [need] bytes of the current
    character are still to come, the next of them within [lo..hi]. *)
Fixpoint utf8_scan (need : nat) (lo hi : N) (s : string) : bool :=
  match s with
  | "" => match need with O => true | S _ => false end
  | String b s' =>
      let n := Ascii.N_of_ascii b in
      match need with
      | O =>
          match utf8_lead n with
          | Some (k, lo', hi') => utf8_scan k lo' hi' s'
          | None => false
          end
      | S k => ((lo <=? n) && (n <=? hi))%N && utf8_scan k 128%N 191%N s'
      end
  end.

(** The bytes are the UTF-8 encoding of some text. *)
Definition utf8_valid (s : string) : bool := utf8_scan 0 0%N 0%N s.

(** Universal newlines: a file opened in text mode hands on every CR LF pair
    and every lone CR (byte 13) as one LF (byte 10). *)
Fixpoint universal_newlines (s : string) : string :=
  match s with
  | "" => ""
  | String c s' =>
      if Ascii.eqb c (Ascii.ascii_of_N 13)
      then
        String (Ascii.ascii_of_N 10)
          match s' with
          | String c' s'' =>
              if Ascii.eqb c' (Ascii.ascii_of_N 10)
              then universal_newlines s''
              else universal_newlines s'
          | "" => ""
          end
      else String c (universal_newlines s')
  end.

(** A roster file that exists in the data directory: the bytes it holds, or
    a file that cannot be opened or read (no permission, a directory). *)
Inductive roster_file : Set :=
  | Bytes (b : string)
  | NoAccess.

(** [fp.open(encoding="utf-8")] followed by [f.read()]: the decoded text,
    newlines translated. Bytes that are not UTF-8 raise UnicodeDecodeError
    (a ValueError by inheritance; the program catches neither). *)
Definition read_text (f : roster_file) : result string :=
  match f with
  | NoAccess => Raise OSError
  | Bytes b =>
      if utf8_valid b then Ok (universal_newlines b)
      else Raise UnicodeDecodeError
  end.

(** ** Rotation primitives *)

(** [next_items(lst, start_idx, n)] *)
Definition next_items {A} (lst : list A) (start_idx : Z) (n : nat)
  : result (list A) :=
  let length := Z.of_nat (length lst) in
  mapM (λ i : nat, j ← py_mod (start_idx + Z.of_nat i) length; getitem lst j)
       (seq 0 n).

(** [advance_index(current, step, length)] *)
Definition advance_index (current step length : Z) : result Z :=
  py_mod (current + step) length.

(** ** Configuration and state *)

(** One entry of [LIST_CONFIG]. *)
Record role : Set := { file : string; count : nat }.

(** The [state] dict: [{"indexes": {...}, "override": ...}]. *)
Record State : Type := { indexes : gmap string Z; override : pyval }.

Definition set_index (key : string) (i : Z) (state : State) : State :=
  {| indexes := <[key := i]> (indexes state); override := override state |}.

(** [d[key]] on a dict *)
Definition dict_get {V} (d : gmap string V) (key : string) : result V :=
  match d !! key with Some v => Ok v | None => Raise KeyError end.

(** ** Conflict substitution *)

(** The [for step in range(1, len(names_pool))] loop of [bump_one]. *)
Fixpoint bump_scan (name_list names_pool : list pyval) (avoid_set : gset pyval)
    (cur : Z) (steps : list nat) : result pyval :=
  match steps with
  | [] => getitem name_list 0
  | step :: rest =>
      j ← py_mod (cur + Z.of_nat step) (Z.of_nat (length names_pool));
      candidate ← getitem names_pool j;
      if bool_decide (candidate ∉ avoid_set) && bool_decide (candidate ∉ name_list)
      then Ok candidate
      else bump_scan name_list names_pool avoid_set cur rest
  end.

(** [bump_one(name_list, names_pool, avoid_set)] *)
Definition bump_one (name_list names_pool : list pyval) (avoid_set : gset pyval)
  : result pyval :=
  match names_pool with
  | [] => Ok PyNone
  | _ =>
      first ← getitem name_list 0;
      cur ← index names_pool first;
      bump_scan name_list names_pool avoid_set cur
        (seq 1 (length names_pool - 1))
  end.

(** ** The calendar *)

Record date : Set := { year : Z; month : Z; day : Z }.

(** [datetime]'s proleptic Gregorian calendar. *)
Definition is_leap (y : Z) : bool :=
  (y `mod` 4 =? 0) && (negb (y `mod` 100 =? 0) || (y `mod` 400 =? 0)).

Definition days_in_month (y m : Z) : Z :=
  if m =? 2 then (if is_leap y then 29 else 28)
  else if (m =? 4) || (m =? 6) || (m =? 9) || (m =? 11) then 30
  else 31.

Definition days_before_year (y : Z) : Z :=
  let p := y - 1 in p * 365 + p `div` 4 - p `div` 100 + p `div` 400.

Definition days_before_month (y m : Z) : Z :=
  foldr Z.add 0 ((λ k, days_in_month y (Z.of_nat k)) <$> seq 1 (Z.to_nat m - 1)).

Definition toordinal (d : date) : Z :=
  days_before_year (year d) + days_before_month (year d) (month d) + day d.

(** [d.weekday()]: Monday is 0, Sunday is 6. *)
Definition weekday (d : date) : Z := (toordinal d + 6) `mod` 7.

(** [is_first_monday_odd_month()], with [datetime.now()] as [today]. *)
Definition is_first_monday_odd_month (today : date) : bool :=
  (month today `mod` 2 =? 1) && ((1 <=? day today) && (day today <=? 7))
  && (weekday today =? 0).

(** [is_special_week(state)] *)
Definition is_special_week (today : date) : M State bool :=
  state ← get;
  if decide (override state = PyStr "special") then mret true
  else if decide (override state = PyStr "normal") then mret false
  else mret (is_first_monday_odd_month today).

(** ** The rotation core *)

Section Core.
(** [LIST_CONFIG], and the roster files that exist in the data directory. *)
Variable config : gmap string role.
Variable files : gmap string roster_file.

(** [load_csv_list(key)] *)
Definition load_csv_list (key : string) : result (list pyval) :=
  r ← dict_get config key;
  match files !! file r with
  | None => Ok []
  | Some f =>
      text ← read_text f;
      let row := strip text in
      Ok (PyStr <$> filter (λ x, x ≠ "") (strip <$> split_comma row))
  end.

(** [get_list_with_advance(key, state, advance)]; the returned [state] is
    the object the monad threads. *)
Definition get_list_with_advance (key : string) (advance : bool)
  : M State (list pyval) :=
  names ← lift (load_csv_list key);
  match names with
  | [] => mret []
  | _ =>
      state ← get;
      idx ← lift (dict_get (indexes state) key);
      r ← lift (dict_get config key);
      picked ← lift (next_items names idx (count r));
      (if advance
       then
         i ← lift (advance_index idx (Z.of_nat (count r))
                     (Z.of_nat (length names)));
         put (set_index key i state)
       else mret tt);;
      mret picked
  end.

(** The [for i, person in enumerate(bread_bro)] loop of
    [resolve_duplicates]; [bread_bro] is updated in place. *)
Fixpoint bump_bread_bro (hymn pool_bro : list pyval) (positions : list nat)
    (bread_bro : list pyval) : result (list pyval) :=
  match positions with
  | [] => Ok bread_bro
  | i :: rest =>
      person ← getitem bread_bro (Z.of_nat i);
      if bool_decide (person ∈ hymn)
      then
        b ← bump_one [person] pool_bro (list_to_set (hymn ++ bread_bro));
        bump_bread_bro hymn pool_bro rest (<[i := b]> bread_bro)
      else bump_bread_bro hymn pool_bro rest bread_bro
  end.

(** [resolve_duplicates(hymn, bread_bro, sharing, topic, pianist, state)] *)
Definition resolve_duplicates (hymn bread_bro sharing topic pianist : list pyval)
  : M State (list pyval * list pyval * list pyval * list pyval * list pyval) :=
  pool_bro ← lift (load_csv_list "bread_bro");
  bread_bro ← lift (bump_bread_bro hymn pool_bro
                      (seq 0 (length bread_bro)) bread_bro);
  pool_sharing ← lift (load_csv_list "sharing");
  sharing ← lift
    match sharing, topic with
    | s0 :: sharing_rest, t0 :: _ =>
        if decide (s0 = t0)
        then b ← bump_one sharing pool_sharing (list_to_set topic);
             Ok (b :: sharing_rest)
        else Ok sharing
    | _, _ => Ok sharing
    end;
  pool_pianist ← lift (load_csv_list "pianist");
  pianist ← lift
    match pianist with
    | [p0; p1] =>
        if decide (p0 = p1)
        then b ← bump_one [p1] pool_pianist (list_to_set [p0]);
             Ok [p0; b]
        else Ok pianist
    | _ => Ok pianist
    end;
  mret (hymn, bread_bro, sharing, topic, pianist).

(** [l[0] if l else ''] inside an f-string *)
Definition first_or_empty (l : list pyval) : string :=
  match l with [] => "" | x :: _ => format x end.

(** The text [msg] that the if/else at the end of [compose_message] builds
    from the selections. *)
Definition message_text (special : bool)
    (hymn bread_bro bread_sis baking sharing pianist topic url : list pyval)
  : result string :=
  if special
  then
    Ok ("分享：" +:+ first_or_empty sharing +:+ nl +:+
        "司琴：（六）" +:+ first_or_empty pianist)
  else
    let pianist_text :=
      match pianist with
      | [p0; p1] => "（六）" +:+ format p0 +:+ "　（日）" +:+ format p1
      | _ => ""
      end in
    hymn_text ← join "　" hymn;
    bread_bro_text ← join "　" bread_bro;
    bread_sis_text ← join "　" bread_sis;
    Ok ("帶詩歌：" +:+ hymn_text +:+ nl +:+
        "餅杯（弟兄）：" +:+ bread_bro_text +:+ nl +:+
        "餅杯（姊妹）：" +:+ bread_sis_text +:+ nl +:+
        "做餅：" +:+ first_or_empty baking +:+ nl +:+
        "分享：" +:+ first_or_empty sharing +:+ nl +:+
        "司琴：" +:+ pianist_text +:+ nl +:+
        "專題分享：" +:+ first_or_empty topic +:+ nl +:+
        "題目：" +:+ first_or_empty url).

(** [compose_message(state, advance)], with [datetime.now()] as [today]. *)
Definition compose_message (advance : bool) (today : date) : M State string :=
  hymn ← get_list_with_advance "hymn" advance;
  bread_bro ← get_list_with_advance "bread_bro" advance;
  bread_sis ← get_list_with_advance "bread_sis" advance;
  baking ← get_list_with_advance "baking" advance;
  sharing ← get_list_with_advance "sharing" advance;
  pianist ← get_list_with_advance "pianist" advance;
  topic ← get_list_with_advance "topic" advance;
  url ← get_list_with_advance "url" advance;
  '(hymn, bread_bro, sharing, topic, pianist) ←
    resolve_duplicates hymn bread_bro sharing topic pianist;
  special ← is_special_week today;
  lift (message_text special hymn bread_bro bread_sis baking sharing pianist
          topic url).
End Core.

(** ** Persistence and commands *)

(** What a JSON file of the data directory holds. [json.dumps] and
    [json.loads] are taken symbolically: the file holds either the
    serialisation of a value, which [json.loads] decodes back to that value,
    or text that [json.loads] rejects, or it cannot be read at all. *)
Inductive stored (A : Type) : Type :=
  | Json (a : A)
  | Garbled
  | Unreadable.
Arguments Json {A} a.
Arguments Garbled {A}.
Arguments Unreadable {A}.

(** The data directory: the roster files, [state.json] and
    [this_week.json] ([None] when the file does not exist). *)
Record disk : Type := {
  csv_files : gmap string roster_file;
  STATE_FILE : option (stored State);
  THIS_WEEK_FILE : option (stored (gmap string string))
}.

(** What a handler sends through the messaging API. *)
Inductive action : Set :=
  | Reply (msg : string)
  | Push (msg : string).

(** [json.loads(path.read_text(encoding="utf-8"))] *)
Definition read_json {A} (f : option (stored A)) : result A :=
  match f with
  | Some (Json a) => Ok a
  | Some Garbled => Raise JSONDecodeError
  | Some Unreadable | None => Raise OSError
  end.

(** [save_state(state)] *)
Definition save_state (state : State) : M disk unit :=
  d ← get;
  put {| csv_files := csv_files d; STATE_FILE := Some (Json state);
         THIS_WEEK_FILE := THIS_WEEK_FILE d |}.

(** [save_this_week(data)] *)
Definition save_this_week (data : gmap string string) : M disk unit :=
  d ← get;
  put {| csv_files := csv_files d; STATE_FILE := STATE_FILE d;
         THIS_WEEK_FILE := Some (Json data) |}.

(** [load_this_week()] *)
Definition load_this_week : M disk (gmap string string) :=
  d ← get;
  match THIS_WEEK_FILE d with
  | Some _ => lift (read_json (THIS_WEEK_FILE d))
  | None => mret ∅
  end.

Section Service.
Variable config : gmap string role.

(** [DEFAULT_STATE] *)
Definition DEFAULT_STATE : State :=
  {| indexes := (λ _, 0) <$> config; override := PyNone |}.

(** [load_state()] *)
Definition load_state : M disk State :=
  d ← get;
  (match STATE_FILE d with
   | None => save_state DEFAULT_STATE
   | Some _ => mret tt
   end);;
  d ← get;
  lift (read_json (STATE_FILE d)).

(** [weekly_job()]; a failed delivery is caught and only logged, so the
    job ends the same way whether or not the push goes through. *)
Definition weekly_job (today : date) : M disk (list action) :=
  state ← load_state;
  d ← get;
  let '(r, new_state) := compose_message config (csv_files d) true today state in
  message ← lift r;
  save_state new_state;;
  save_this_week {[ "text" := message ]};;
  mret [Push message].

(** [handle_message(event)], on the text of the event. *)
Definition handle_message (text : string) (today : date) : M disk (list action) :=
  let text := strip text in
  if String.prefix "!status" text then
    state ← load_state;
    special ← lift (fst (is_special_week today state));
    let mode := if (special : bool) then "Special" else "Normal" in
    mret [Reply ("Current mode: " +:+ mode)]
  else if String.prefix "!resend" text then
    week ← load_this_week;
    let msg := default "No schedule" (week !! "text") in
    mret [Push msg; Reply "Resent."]
  else mret [Reply "未來支援更多指令"].
End Service.

(** [LIST_CONFIG] *)
Definition LIST_CONFIG : gmap string role :=
  list_to_map
    [ ("hymn",      {| file := "hymn.csv";      count := 2 |});
      ("bread_bro", {| file := "bread_bro.csv"; count := 2 |});
      ("bread_sis", {| file := "bread_sis.csv"; count := 2 |});
      ("baking",    {| file := "baking.csv";    count := 1 |});
      ("sharing",   {| file := "sharing.csv";   count := 1 |});
      ("pianist",   {| file := "pianist.csv";   count := 2 |});
      ("topic",     {| file := "topic.csv";     count := 1 |});
      ("url",       {| file := "url.csv";       count := 1 |}) ].

(** ** Auxiliary notions used in the statements *)

(** The entry of [lst] at index [i] taken modulo the length. *)
Definition cyclic {A} (lst : list A) (i : Z) : option A :=
  lst !! Z.to_nat (i `mod` Z.of_nat (length lst)).

(** [k] successive advancing calls of the rotator for one role. *)
Fixpoint advance_times (config : gmap string role) (files : gmap string roster_file)
    (key : string) (k : nat) : M State unit :=
  match k with
  | O => mret tt
  | S k' =>
      get_list_with_advance config files key true;;
      advance_times config files key k'
  end.

(** ceil(a / b) on naturals *)
Definition ceil_div (a b : nat) : nat := ((a + b - 1) / b)%nat.

(** The substitution rule in the words of the specification: scan the pool
    from the place right after position [pos] of the conflicting name, in
    pool order, wrapping once; the first candidate outside the avoid-set and
    outside the current selection wins, and the conflicting name stays when
    there is none. *)
Definition bump_one_spec (name : pyval) (selection pool : list pyval)
    (avoid : gset pyval) (pos : nat) : pyval :=
  let scan_order := (drop (S pos) pool ++ take pos pool)%list in
  default name (head (filter (λ c, (c ∉ avoid) ∧ (c ∉ selection)) scan_order)).

(** The roles in the order [compose_message] rotates and prints them. *)
Definition role_keys : list string :=
  ["hymn"; "bread_bro"; "bread_sis"; "baking"; "sharing"; "pianist"; "topic";
   "url"].

(** The fixed label of each role's line, in the same order. *)
Definition line_labels : list string :=
  ["帶詩歌："; "餅杯（弟兄）："; "餅杯（姊妹）："; "做餅："; "分享："; "司琴：";
   "專題分享："; "題目："].

(** The rendering rules in the words of the specification. *)
Definition joined (names : list string) : string := String.concat "　" names.

Definition first_name (names : list string) : string := default "" (head names).

Definition pianist_value (names : list string) : string :=
  if decide (length names = 2%nat)
  then "（六）" +:+ default "" (names !! 0%nat) +:+ "　（日）" +:+
       default "" (names !! 1%nat)
  else "".

Definition role_values
    (hymn bread_bro bread_sis baking sharing pianist topic url : list string)
  : list string :=
  [joined hymn; joined bread_bro; joined bread_sis; first_name baking;
   first_name sharing; pianist_value pianist; first_name topic; first_name url].

(** One line per role: the label followed by the value. *)
Definition normal_text (values : list string) : string :=
  String.concat nl (zip_with String.append line_labels values).

Definition special_text (sharing pianist : list string) : string :=
  String.concat nl
    ["分享：" +:+ first_name sharing; "司琴：（六）" +:+ first_name pianist].

(** A data directory used in the examples. *)
Definition sample_files : gmap string roster_file :=
  list_to_map
    [ ("hymn.csv", Bytes "A, B ,C"); ("bread_bro.csv", Bytes "B,A,D,E");
      ("bread_sis.csv", Bytes "x,y"); ("sharing.csv", Bytes "P,Q");
      ("pianist.csv", Bytes "X"); ("topic.csv", Bytes "P");
      ("url.csv", Bytes "u1,u2") ].

(** The same directory with a baking roster, so that no roster is empty. *)
Definition full_files : gmap string roster_file :=
  <["baking.csv" := Bytes "M,N"]> sample_files.

(** ** Further notions used in the statements *)

(** The [n] names from index [c] on, cyclically. *)
Definition cyclic_window {A} (lst : list A) (c : Z) (n : nat) : list A :=
  omap (λ i : nat, cyclic lst (c + Z.of_nat i)) (seq 0 n).

(** [k] successive advancing calls of the rotator for one role, keeping the
    names they return, in order. *)
Fixpoint select_times (config : gmap string role) (files : gmap string roster_file)
    (key : string) (k : nat) : M State (list pyval) :=
  match k with
  | O => mret []
  | S k' =>
      picked ← get_list_with_advance config files key true;
      later ← select_times config files key k';
      mret (picked ++ later)%list
  end.

(** The start-up block under [if __name__ == "__main__"], up to the call
    that starts the web server: the weekly job runs once if there is no
    snapshot yet. *)
Definition main (config : gmap string role) (today : date)
  : M disk (list action) :=
  d ← get;
  match THIS_WEEK_FILE d with
  | None => weekly_job config today
  | Some _ => mret []
  end.

(** The roster file of a role, when there is one, can be read as UTF-8
    text. *)
Definition roster_readable (config : gmap string role)
    (files : gmap string roster_file) (key : string) : Prop :=
  ∀ r f, config !! key = Some r → files !! file r = Some f →
    ∃ text, read_text f = Ok text.

(** Every roster file of the shipped configuration that exists can be read
    as UTF-8 text. *)
Definition rosters_readable (files : gmap string roster_file) : Prop :=
  ∀ key, key ∈ role_keys → roster_readable LIST_CONFIG files key.

(** A state with a cursor for each of the eight roles. *)
Definition has_cursors (state : State) : Prop :=
  ∀ key, key ∈ role_keys → is_Some (indexes state !! key).

(** A data directory whose state file is absent or holds such a state. *)
Definition healthy (d : disk) : Prop :=
  match STATE_FILE d with
  | None => True
  | Some (Json state) => has_cursors state
  | Some _ => False
  end.

(** The weekly jobs of successive Mondays; before each one the roster files
    may have been edited. *)
Fixpoint weekly_jobs (config : gmap string role)
    (weeks : list (date * gmap string roster_file)) : M disk (list action) :=
  match weeks with
  | [] => mret []
  | (today, rosters) :: later =>
      d ← get;
      put {| csv_files := rosters; STATE_FILE := STATE_FILE d;
             THIS_WEEK_FILE := THIS_WEEK_FILE d |};;
      sent ← weekly_job config today;
      more ← weekly_jobs config later;
      mret (sent ++ more)%list
  end.

(** Notions used to state what the roster loader returns. *)

(** No comma (byte 44) in the string. *)
Fixpoint no_comma (s : string) : bool :=
  match s with
  | "" => true
  | String c s' => negb (Ascii.eqb c (Ascii.ascii_of_N 44)) && no_comma s'
  end.

(** Only UTF-8 continuation bytes. *)
Fixpoint all_continuation (s : string) : bool :=
  match s with
  | "" => true
  | String b s' => is_continuation b && all_continuation s'
  end.

(** A lead byte followed by continuation bytes. *)
Definition utf8_char (c : string) : bool :=
  match c with
  | "" => false
  | String b t => negb (is_continuation b) && all_continuation t
  end.

(** The string does not start in the middle of a character. *)
Definition starts_clean (s : string) : bool :=
  match s with
  | "" => true
  | String b _ => negb (is_continuation b)
  end.

(** What [strip] does on the list of characters. *)
Definition trim (l : list string) : list string :=
  rev (dropwhile isspace (rev (dropwhile isspace l))).

(** A list of pieces that is the character list of its concatenation: only
    the first piece may lack a lead byte. *)
Definition segmented (l : list string) : Prop :=
  match l with
  | [] => True
  | c :: cs =>
      c ≠ "" ∧ (utf8_char c = true ∨ all_continuation c = true)
      ∧ Forall (λ c, utf8_char c = true) cs
  end.

(** No carriage return (byte 13) in the string. *)
Fixpoint no_return (s : string) : bool :=
  match s with
  | "" => true
  | String c s' => negb (Ascii.eqb c (Ascii.ascii_of_N 13)) && no_return s'
  end.

(** A name that can be written to a roster file and read back: UTF-8 text
    that is not empty, has nothing to strip, no comma and no carriage
    return. *)
Definition clean_name (s : string) : Prop :=
  s ≠ "" ∧ strip s = s ∧ no_comma s = true ∧ utf8_valid s = true
  ∧ no_return s = true.

(** * Properties *)

Example next_items_wraps :
  next_items ["a"; "b"; "c"] 2 2 = Ok ["c"; "a"].
Proof. reflexivity. Qed.

Example next_items_repeats :
  next_items ["a"; "b"] (-1) 5 = Ok ["b"; "a"; "b"; "a"; "b"].
Proof. reflexivity. Qed.

Example next_items_empty_roster : next_items ([] : list string) 0 1 = Raise ZeroDivisionError.
Proof. reflexivity. Qed.

Example strip_example : strip (chr_bytes [32; 227; 128; 128; 65; 32; 66; 10]%N) = "A B".
Proof. reflexivity. Qed.

Example split_example : split_comma "a,,b," = ["a"; ""; "b"; ""].
Proof. reflexivity. Qed.

Example nl_line_feed : nl = chr_bytes [10]%N ∧ String.length nl = 1%nat.
Proof. by split. Qed.

(** ** Python list primitives *)

Lemma getitem_lookup {A} (l : list A) (j : Z) (x : A) :
  0 ≤ j → l !! Z.to_nat j = Some x → getitem l j = Ok x.
Proof.
  intros Hj Hx. unfold getitem.
  assert (Z.to_nat j < length l)%nat by (eapply lookup_lt_Some; eauto).
  destruct (Z.ltb_spec j 0); [lia|].
  destruct (Z.leb_spec 0 j); [|lia].
  destruct (Z.ltb_spec j (Z.of_nat (length l))); [|lia].
  simpl. by rewrite Hx.
Qed.

Lemma mapM_ok {A B} (f : A → result B) (g : A → B) (l : list A) :
  (∀ x, x ∈ l → f x = Ok (g x)) → mapM f l = Ok (g <$> l).
Proof.
  induction l as [|x l IH]; intros Hf; [done|].
  cbn. rewrite (Hf x) by left. cbn.
  rewrite IH; [done|]. intros y Hy. apply Hf. by right.
Qed.

Lemma cyclic_is_Some {A} (lst : list A) (i : Z) :
  lst ≠ [] → is_Some (cyclic lst i).
Proof.
  intros Hne. apply lookup_lt_is_Some.
  assert (0 < length lst)%nat by (destruct lst; [done | simpl; lia]).
  pose proof (Z.mod_pos_bound i (Z.of_nat (length lst))). lia.
Qed.

Lemma next_items_cyclic {A} (lst : list A) (start_idx : Z) (n : nat) :
  lst ≠ [] →
  ∃ picked, next_items lst start_idx n = Ok picked
    ∧ length picked = n
    ∧ ∀ i, (i < n)%nat → picked !! i = cyclic lst (start_idx + Z.of_nat i).
Proof.
  intros Hne. destruct lst as [|a lst'] eqn:E; [done|]. rewrite <- E in *.
  set (g := λ i : nat, default a (cyclic lst (start_idx + Z.of_nat i))).
  exists (g <$> seq 0 n). split; [|split].
  - unfold next_items. apply mapM_ok. intros i _.
    destruct (cyclic_is_Some lst (start_idx + Z.of_nat i) Hne) as [x Hx].
    unfold g. rewrite Hx. simpl.
    assert (0 < length lst)%nat by (rewrite E; simpl; lia).
    unfold py_mod. destruct (Z.eqb_spec (Z.of_nat (length lst)) 0); [lia|].
    cbn. apply getitem_lookup; [|exact Hx].
    apply Z.mod_pos_bound. lia.
  - by rewrite length_fmap, length_seq.
  - intros i Hi. rewrite list_lookup_fmap, lookup_seq_lt by done. simpl.
    unfold g. by destruct (cyclic_is_Some lst (start_idx + Z.of_nat i) Hne) as [x ->].
Qed.

Lemma cyclic_elem_of {A} (lst : list A) (i : Z) (x : A) :
  cyclic lst i = Some x → x ∈ lst.
Proof. intros H. eapply list_elem_of_lookup_2, H. Qed.

(** ** The rotator *)

Section Rotator.
Variable config : gmap string role.
Variable files : gmap string roster_file.

Lemma load_csv_list_names (key : string) (names : list pyval) :
  load_csv_list config files key = Ok names → ∃ l, names = PyStr <$> l.
Proof.
  unfold load_csv_list, dict_get. destruct (config !! key) as [r|]; [|done].
  cbn. destruct (files !! file r) as [f|]; [|intros [= <-]; by exists []].
  destruct (read_text f) as [text|]; [|done]. cbn. intros [= <-]. eauto.
Qed.

Lemma load_csv_list_configured (key : string) (names : list pyval) :
  load_csv_list config files key = Ok names → is_Some (config !! key).
Proof.
  unfold load_csv_list, dict_get. by destruct (config !! key) as [r|].
Qed.

Lemma names_subset (xs : list pyval) (l : list string) :
  (∀ x, x ∈ xs → x ∈ PyStr <$> l) → ∃ ys, xs = PyStr <$> ys.
Proof.
  induction xs as [|x xs IH]; intros Hsub; [by exists []|].
  destruct IH as [ys ->]; [intros y Hy; apply Hsub; by right|].
  assert (x ∈ PyStr <$> l) as Hx by (apply Hsub; by left).
  apply list_elem_of_fmap in Hx as (s & -> & _). by exists (s :: ys).
Qed.

Lemma load_csv_list_readable (key : string) :
  is_Some (config !! key) → roster_readable config files key →
  ∃ names, load_csv_list config files key = Ok names.
Proof.
  intros [r Hr] Hread. unfold load_csv_list, dict_get. rewrite Hr. cbn.
  destruct (files !! file r) as [f|] eqn:Hf; [|eauto].
  destruct (Hread r f Hr Hf) as [text ->]. cbn. eauto.
Qed.

Lemma load_csv_list_Ok_readable (key : string) (names : list pyval) :
  load_csv_list config files key = Ok names → roster_readable config files key.
Proof.
  intros Hload r f Hr Hf. unfold load_csv_list, dict_get in Hload.
  rewrite Hr in Hload. cbn in Hload. rewrite Hf in Hload.
  destruct (read_text f) as [text|]; [eauto|done].
Qed.

Lemma load_csv_list_missing_file (key : string) (r : role) :
  config !! key = Some r → files !! file r = None →
  load_csv_list config files key = Ok [].
Proof. intros Hr Hf. unfold load_csv_list, dict_get. by rewrite Hr; cbn; rewrite Hf. Qed.

(** C1. For a non-empty roster of length L, any cursor and the count n of the
    role, the advancing rotator returns exactly n names, each a member of the
    roster, the i-th being the roster entry at index (cursor + i) mod L; in
    the state it leaves, the role's cursor reads (cursor + n) mod L, and the
    cursors of the other roles and the override are as before. *)
Theorem get_list_with_advance_rotates (key : string) (r : role)
    (names : list pyval) (state : State) (cursor : Z) :
  config !! key = Some r →
  load_csv_list config files key = Ok names →
  names ≠ [] →
  indexes state !! key = Some cursor →
  ∃ picked state',
    get_list_with_advance config files key true state = (Ok picked, state')
    ∧ length picked = count r
    ∧ (∀ x, x ∈ picked → x ∈ names)
    ∧ (∀ i, (i < count r)%nat →
         picked !! i = names !! Z.to_nat ((cursor + Z.of_nat i) `mod` Z.of_nat (length names)))
    ∧ indexes state' !! key
      = Some ((cursor + Z.of_nat (count r)) `mod` Z.of_nat (length names))
    ∧ (∀ k, k ≠ key → indexes state' !! k = indexes state !! k)
    ∧ override state' = override state.
Proof.
  intros Hcfg Hload Hne Hidx.
  destruct (next_items_cyclic names cursor (count r) Hne) as (picked & Hp & Hlen & Hnth).
  exists picked,
    (set_index key ((cursor + Z.of_nat (count r)) `mod` Z.of_nat (length names))
       state).
  split; [|split; [done|split; [|split; [|split; [|split]]]]].
  - unfold get_list_with_advance, mbind, M_bind, lift, get, put, mret, M_ret.
    rewrite Hload. destruct names as [|a names']; [done|].
    unfold dict_get. rewrite Hidx, Hcfg, Hp.
    unfold advance_index, py_mod. simpl length.
    destruct (Z.eqb_spec (Z.of_nat (S (length names'))) 0); [lia|]. done.
  - intros x Hx. apply list_elem_of_lookup in Hx as [i Hi].
    assert (i < count r)%nat by (rewrite <- Hlen; eapply lookup_lt_Some; eauto).
    rewrite Hnth in Hi by done. by eapply cyclic_elem_of.
  - intros i Hi. by rewrite Hnth.
  - unfold set_index. cbn [indexes]. apply lookup_insert_eq.
  - intros k Hk. unfold set_index. cbn [indexes]. by apply lookup_insert_ne.
  - done.
Qed.

(** One call of the rotator: it succeeds as soon as the role is configured
    and, for a non-empty roster, has a cursor. *)
Lemma get_list_with_advance_step (key : string) (r : role) (names : list pyval)
    (advance : bool) (state : State) :
  config !! key = Some r →
  load_csv_list config files key = Ok names →
  (names ≠ [] → is_Some (indexes state !! key)) →
  ∃ picked state',
    get_list_with_advance config files key advance state = (Ok picked, state')
    ∧ (∀ x, x ∈ picked → x ∈ names)
    ∧ (names = [] → picked = [])
    ∧ override state' = override state
    ∧ (∀ k, k ≠ key → indexes state' !! k = indexes state !! k)
    ∧ (names = [] ∨ advance = false → state' = state)
    ∧ (advance = true → names ≠ [] → ∀ c, indexes state !! key = Some c →
       indexes state' !! key
       = Some ((c + Z.of_nat (count r)) `mod` Z.of_nat (length names))).
Proof.
  intros Hcfg Hload Hidx.
  unfold get_list_with_advance, mbind, M_bind, lift, get, put, mret, M_ret.
  rewrite Hload. destruct names as [|a names'] eqn:E.
  { exists [], state. repeat split; done. }
  rewrite <- E in *. assert (names ≠ []) as Hne by (rewrite E; done).
  destruct (Hidx Hne) as [c Hc].
  destruct (next_items_cyclic names c (count r) Hne) as (picked & Hp & Hlen & Hnth).
  unfold dict_get. rewrite Hc, Hcfg, Hp.
  assert (∀ x, x ∈ picked → x ∈ names) as Hsub.
  { intros x Hx. apply list_elem_of_lookup in Hx as [i Hi].
    assert (i < count r)%nat by (rewrite <- Hlen; eapply lookup_lt_Some; eauto).
    rewrite Hnth in Hi by done. by eapply cyclic_elem_of. }
  destruct advance.
  - unfold advance_index, py_mod.
    destruct (Z.eqb_spec (Z.of_nat (length names)) 0) as [H0|_].
    { rewrite E in H0. simpl in H0. lia. }
    eexists picked, _. split; [done|]. split; [done|].
    split; [by intros ->|]. split; [done|]. split.
    { intros k Hk. simpl. by rewrite lookup_insert_ne. }
    split.
    { intros [->|]; done. }
    intros _ _ c' Hc'. simpl. rewrite lookup_insert_eq. congruence.
  - exists picked, state. split; [done|]. split; [done|].
    split; [by intros ->|]. repeat split; done.
Qed.

End Rotator.

Lemma get_list_with_advance_rotates_witness :
  ∃ picked state',
    get_list_with_advance LIST_CONFIG sample_files "hymn" true
      (DEFAULT_STATE LIST_CONFIG) = (Ok picked, state')
    ∧ length picked = 2%nat
    ∧ (∀ x, x ∈ picked → x ∈ [PyStr "A"; PyStr "B"; PyStr "C"])
    ∧ (∀ i, (i < 2)%nat →
         picked !! i =
         [PyStr "A"; PyStr "B"; PyStr "C"] !! Z.to_nat ((0 + Z.of_nat i) `mod` Z.of_nat 3))
    ∧ indexes state' !! "hymn" = Some ((0 + Z.of_nat 2) `mod` Z.of_nat 3)
    ∧ (∀ k, k ≠ "hymn" →
         indexes state' !! k = indexes (DEFAULT_STATE LIST_CONFIG) !! k)
    ∧ override state' = override (DEFAULT_STATE LIST_CONFIG).
Proof.
  apply (get_list_with_advance_rotates LIST_CONFIG sample_files "hymn"
           {| file := "hymn.csv"; count := 2 |}
           [PyStr "A"; PyStr "B"; PyStr "C"] (DEFAULT_STATE LIST_CONFIG) 0);
    [reflexivity | reflexivity | discriminate | reflexivity].
Defined.

(** ** Rotation period *)

Lemma ceil_div_bounds (L n : nat) :
  (1 ≤ n)%nat → (L ≤ ceil_div L n * n ∧ ceil_div L n * n < L + n)%nat.
Proof.
  intros Hn. unfold ceil_div.
  pose proof (Nat.div_mod_eq (L + n - 1) n) as Hd.
  pose proof (Nat.mod_upper_bound (L + n - 1) n ltac:(lia)) as Hm.
  nia.
Qed.

Lemma ceil_div_multiple (L n : nat) :
  (1 ≤ L)%nat → (1 ≤ n)%nat →
  (Z.of_nat L | Z.of_nat (ceil_div L n * n)) ↔
  (Z.of_nat n | Z.of_nat L) ∨ (Z.of_nat L | Z.of_nat n).
Proof.
  intros HL Hn. destruct (ceil_div_bounds L n Hn) as [Hlo Hhi].
  set (k := ceil_div L n) in *. split.
  - intros [m Hm]. destruct (le_lt_dec n L) as [Hle|Hlt].
    + left. assert (m = 1) by nia. subst m. exists (Z.of_nat k). lia.
    + right. assert (k = 1)%nat by nia. exists m. lia.
  - intros [[q Hq]|[q Hq]].
    + assert (k = Z.to_nat q) by nia. exists 1. nia.
    + destruct (le_lt_dec n L) as [Hle|Hlt].
      * assert (q = 1) by nia. assert (k = 1)%nat by nia. exists 1. nia.
      * assert (k = 1)%nat by nia. exists q. nia.
Qed.

Section Period.
Variable config : gmap string role.
Variable files : gmap string roster_file.

Lemma advance_times_cursor (key : string) (r : role) (names : list pyval) (k : nat) :
  config !! key = Some r →
  load_csv_list config files key = Ok names →
  names ≠ [] →
  ∀ (state : State) (cursor : Z),
    indexes state !! key = Some cursor →
    ∃ state',
      advance_times config files key k state = (Ok tt, state')
      ∧ indexes state' !! key =
          Some (match k with
                | O => cursor
                | _ => (cursor + Z.of_nat (k * count r)) `mod` Z.of_nat (length names)
                end).
Proof.
  intros Hcfg Hload Hne. induction k as [|k IH]; intros state cursor Hidx.
  - exists state. done.
  - destruct (get_list_with_advance_step config files key r names true state
                Hcfg Hload) as (picked & st1 & Hrun & _ & _ & _ & _ & _ & Hadv);
      [eauto|].
    set (c1 := (cursor + Z.of_nat (count r)) `mod` Z.of_nat (length names)) in *.
    destruct (IH st1 c1) as (state' & Hk & Hc); [by apply Hadv|].
    exists state'. split.
    + simpl. unfold mbind, M_bind at 1. rewrite Hrun. exact Hk.
    + rewrite Hc. f_equal. destruct k as [|k'].
      * unfold c1. f_equal. lia.
      * unfold c1. rewrite Zplus_mod_idemp_l. f_equal. lia.
Qed.

(** C2, amended. For a non-empty roster of length L, a count n ≥ 1 and a
    starting cursor in [0, L), ceil(L/n) successive advancing calls all
    succeed, and the cursor is back at its starting value exactly when n
    divides L or L divides n. *)
Theorem rotation_period (key : string) (r : role) (names : list pyval)
    (state : State) (cursor : Z) :
  config !! key = Some r →
  load_csv_list config files key = Ok names →
  names ≠ [] →
  (1 ≤ count r)%nat →
  indexes state !! key = Some cursor →
  0 ≤ cursor < Z.of_nat (length names) →
  ∃ state',
    advance_times config files key (ceil_div (length names) (count r)) state
      = (Ok tt, state')
    ∧ (indexes state' !! key = Some cursor ↔
       (Z.of_nat (count r) | Z.of_nat (length names)) ∨
       (Z.of_nat (length names) | Z.of_nat (count r))).
Proof.
  intros Hcfg Hload Hne Hn Hidx Hc.
  assert (1 ≤ length names)%nat as HL by (destruct names; [done | simpl; lia]).
  destruct (advance_times_cursor key r names (ceil_div (length names) (count r))
              Hcfg Hload Hne state cursor Hidx) as (state' & Hrun & Hcur).
  exists state'. split; [done|].
  rewrite Hcur, <- (ceil_div_multiple _ _ HL Hn).
  destruct (ceil_div_bounds (length names) (count r) Hn) as [Hlo _].
  set (k := ceil_div (length names) (count r)) in *.
  destruct k as [|k'] eqn:Ek; [lia|]. rewrite <- Ek in *. clear Ek k'.
  set (L := Z.of_nat (length names)) in *.
  set (s := Z.of_nat (k * count r)) in *.
  split.
  - intros [= Heq]. apply Z.mod_divide; [lia|].
    assert ((cursor + s) `mod` L = (cursor `mod` L + s `mod` L) `mod` L) as E
      by apply Zplus_mod.
    rewrite (Z.mod_small cursor L) in E by lia.
    pose proof (Z.mod_pos_bound s L ltac:(lia)) as Hs.
    rewrite Heq in E.
    destruct (Z_lt_dec (cursor + s `mod` L) L) as [Hlt|Hge].
    + rewrite Z.mod_small in E by lia. lia.
    + assert ((cursor + s `mod` L) `mod` L = cursor + s `mod` L - L) as E'.
      { symmetry. apply (Z.mod_unique _ _ 1); lia. }
      lia.
  - intros Hdiv. f_equal. apply Z.mod_divide in Hdiv; [|lia].
    rewrite Zplus_mod, Hdiv, Z.add_0_r, Z.mod_mod by lia.
    apply Z.mod_small. lia.
Qed.
End Period.

Lemma rotation_period_witness :
  ∃ state',
    advance_times LIST_CONFIG sample_files "sharing" (ceil_div 2 1)
      (DEFAULT_STATE LIST_CONFIG) = (Ok tt, state')
    ∧ (indexes state' !! "sharing" = Some 0 ↔
       (Z.of_nat 1 | Z.of_nat 2) ∨ (Z.of_nat 2 | Z.of_nat 1)).
Proof.
  apply (rotation_period LIST_CONFIG sample_files "sharing"
           {| file := "sharing.csv"; count := 1 |}
           [PyStr "P"; PyStr "Q"] (DEFAULT_STATE LIST_CONFIG) 0);
    [reflexivity | reflexivity | discriminate | simpl; lia | reflexivity | simpl; lia].
Defined.

(** C2 as stated fails: a roster of three names rotated two at a time has
    ceil(3/2) = 2, and two advancing calls move the cursor from 0 to 1. *)
Lemma rotation_period_counterexample :
  load_csv_list LIST_CONFIG sample_files "hymn" = Ok [PyStr "A"; PyStr "B"; PyStr "C"]
  ∧ count <$> LIST_CONFIG !! "hymn" = Some 2%nat
  ∧ indexes (DEFAULT_STATE LIST_CONFIG) !! "hymn" = Some 0
  ∧ ceil_div 3 2 = 2%nat
  ∧ indexes (snd (advance_times LIST_CONFIG sample_files "hymn" (ceil_div 3 2)
                    (DEFAULT_STATE LIST_CONFIG))) !! "hymn" = Some 1
  ∧ indexes (snd (advance_times LIST_CONFIG sample_files "hymn" (ceil_div 3 2)
                    (DEFAULT_STATE LIST_CONFIG))) !! "hymn"
    ≠ indexes (DEFAULT_STATE LIST_CONFIG) !! "hymn".
Proof. repeat split; try reflexivity. vm_compute. discriminate. Qed.

(** ** The substitution scan *)

Lemma index_first {A} `{EqDecision A} (l : list A) (x : A) :
  x ∈ l →
  ∃ pos : nat, index l x = Ok (Z.of_nat pos) ∧ l !! pos = Some x
    ∧ ∀ j, (j < pos)%nat → l !! j ≠ Some x.
Proof.
  induction l as [|y l IH]; intros Hin; [by apply elem_of_nil in Hin|].
  simpl. destruct (decide (y = x)) as [->|Hne].
  - exists 0%nat. split; [done|]. split; [done|]. intros j Hj. lia.
  - apply elem_of_cons in Hin as [->|Hin]; [done|].
    destruct (IH Hin) as (pos & Hi & Hp & Hfirst). exists (S pos).
    rewrite Hi. cbn. split; [|split].
    + f_equal. lia.
    + done.
    + intros [|j] Hj; simpl; [congruence|]. apply Hfirst. lia.
Qed.

Lemma scan_order_lookup {A} (pool : list A) (pos step : nat) :
  (pos < length pool)%nat → (1 ≤ step < length pool)%nat →
  cyclic pool (Z.of_nat pos + Z.of_nat step)
  = (drop (S pos) pool ++ take pos pool)%list !! (step - 1)%nat.
Proof.
  intros Hpos Hstep. unfold cyclic.
  destruct (le_lt_dec (length pool) (pos + step)) as [Hwrap|Hnowrap].
  - rewrite lookup_app_r by (rewrite length_drop; lia).
    rewrite length_drop, lookup_take_lt by lia.
    f_equal.
    assert ((Z.of_nat pos + Z.of_nat step) `mod` Z.of_nat (length pool)
            = Z.of_nat pos + Z.of_nat step - Z.of_nat (length pool)) as ->.
    { symmetry. apply (Z.mod_unique _ _ 1); lia. }
    lia.
  - rewrite lookup_app_l by (rewrite length_drop; lia).
    rewrite lookup_drop, Z.mod_small by lia. f_equal. lia.
Qed.

Lemma bump_scan_find (name_list pool : list pyval) (avoid : gset pyval)
    (cur : Z) (name : pyval) (steps : list nat) (cs : list pyval) :
  pool ≠ [] →
  getitem name_list 0 = Ok name →
  Forall2 (λ step c, cyclic pool (cur + Z.of_nat step) = Some c) steps cs →
  bump_scan name_list pool avoid cur steps
  = Ok (default name (head (filter (λ c, (c ∉ avoid) ∧ (c ∉ name_list)) cs))).
Proof.
  intros Hne Hname Hcs. induction Hcs as [|step c steps cs Hc _ IH]; [done|].
  assert (0 < length pool)%nat by (destruct pool; [done | simpl; lia]).
  cbn [bump_scan]. unfold py_mod.
  destruct (Z.eqb_spec (Z.of_nat (length pool)) 0); [lia|].
  cbn [mbind result_bind].
  rewrite (getitem_lookup pool _ c); [|apply Z.mod_pos_bound; lia|exact Hc].
  cbn [mbind result_bind]. rewrite filter_cons.
  destruct (decide ((c ∉ avoid) ∧ (c ∉ name_list))) as [[H1 H2]|Hno].
  - by rewrite !bool_decide_eq_true_2.
  - rewrite IH. destruct (decide (c ∉ avoid)) as [H1|H1].
    + rewrite (bool_decide_eq_false_2 (c ∉ name_list)) by tauto.
      by rewrite andb_false_r.
    + by rewrite (bool_decide_eq_false_2 (c ∉ avoid)).
Qed.

(** [bump_one] once the position of the conflicting name is known. *)
Lemma bump_one_at (name_list names_pool : list pyval) (avoid_set : gset pyval)
    (name : pyval) (pos : nat) :
  head name_list = Some name →
  index names_pool name = Ok (Z.of_nat pos) →
  (pos < length names_pool)%nat →
  bump_one name_list names_pool avoid_set
  = Ok (bump_one_spec name name_list names_pool avoid_set pos).
Proof.
  intros Hhead Hidx Hlt.
  assert (getitem name_list 0 = Ok name) as Hget.
  { destruct name_list; simplify_eq/=. done. }
  unfold bump_one. destruct names_pool as [|p0 pool'] eqn:E; [simpl in Hlt; lia|].
  rewrite <- E in *. rewrite Hget. cbn. rewrite Hidx. cbn.
  unfold bump_one_spec.
  apply bump_scan_find; [by rewrite E|done|].
  apply Forall2_same_length_lookup. split.
  - rewrite length_seq, length_app, length_drop, length_take. lia.
  - intros i step c Hstep Hc. apply lookup_seq in Hstep as [-> Hi].
    rewrite scan_order_lookup by lia.
    rewrite <- Hc. f_equal. lia.
Qed.

(** C3. For a non-empty pool containing the conflicting name (the head of
    the current selection), [bump_one] scans the pool from the place right
    after the name's first position, in pool order, wrapping once, and
    returns the first candidate that is neither in the avoid-set nor in the
    current selection; with no such candidate it returns the conflicting
    name itself. *)
Theorem bump_one_scans (name_list names_pool : list pyval)
    (avoid_set : gset pyval) (name : pyval) :
  names_pool ≠ [] →
  head name_list = Some name →
  name ∈ names_pool →
  ∃ pos : nat,
    names_pool !! pos = Some name
    ∧ (∀ j, (j < pos)%nat → names_pool !! j ≠ Some name)
    ∧ bump_one name_list names_pool avoid_set
      = Ok (bump_one_spec name name_list names_pool avoid_set pos).
Proof.
  intros Hne Hhead Hin.
  destruct (index_first names_pool name Hin) as (pos & Hidx & Hpos & Hfirst).
  exists pos. split; [done|]. split; [done|].
  apply bump_one_at; [done..|]. by eapply lookup_lt_Some.
Qed.

Lemma bump_one_scans_witness :
  ∃ pos : nat,
    [PyStr "B"; PyStr "A"; PyStr "D"; PyStr "E"] !! pos = Some (PyStr "B")
    ∧ (∀ j, (j < pos)%nat →
         [PyStr "B"; PyStr "A"; PyStr "D"; PyStr "E"] !! j ≠ Some (PyStr "B"))
    ∧ bump_one [PyStr "B"] [PyStr "B"; PyStr "A"; PyStr "D"; PyStr "E"]
        (list_to_set [PyStr "A"; PyStr "B"])
      = Ok (bump_one_spec (PyStr "B") [PyStr "B"]
              [PyStr "B"; PyStr "A"; PyStr "D"; PyStr "E"]
              (list_to_set [PyStr "A"; PyStr "B"]) pos).
Proof.
  apply (bump_one_scans [PyStr "B"] [PyStr "B"; PyStr "A"; PyStr "D"; PyStr "E"]
           (list_to_set [PyStr "A"; PyStr "B"]) (PyStr "B"));
    [discriminate | reflexivity | left].
Defined.

Example bump_one_finds :
  bump_one [PyStr "B"] [PyStr "B"; PyStr "A"; PyStr "D"; PyStr "E"]
    (list_to_set [PyStr "A"; PyStr "B"]) = Ok (PyStr "D").
Proof. vm_compute. reflexivity. Qed.

Example bump_one_wraps :
  bump_one [PyStr "D"] [PyStr "B"; PyStr "A"; PyStr "D"]
    (list_to_set [PyStr "B"; PyStr "D"]) = Ok (PyStr "A").
Proof. vm_compute. reflexivity. Qed.

Example bump_one_gives_up :
  bump_one [PyStr "X"] [PyStr "X"; PyStr "Y"] (list_to_set [PyStr "X"; PyStr "Y"])
  = Ok (PyStr "X").
Proof. vm_compute. reflexivity. Qed.

Example bump_one_empty_pool : bump_one [PyStr "X"] [] ∅ = Ok PyNone.
Proof. reflexivity. Qed.

Lemma bump_one_in_pool (name_list names_pool : list pyval)
    (avoid_set : gset pyval) (name : pyval) :
  head name_list = Some name →
  name ∈ names_pool →
  ∃ b, bump_one name_list names_pool avoid_set = Ok b ∧ b ∈ names_pool.
Proof.
  intros Hhead Hin.
  destruct (index_first names_pool name Hin) as (pos & Hidx & Hpos & _).
  rewrite (bump_one_at name_list names_pool avoid_set name pos Hhead Hidx)
    by (by eapply lookup_lt_Some).
  eexists. split; [done|]. unfold bump_one_spec.
  cbv zeta. destruct (head (filter _ _)) as [c|] eqn:Hc; simpl; [|done].
  apply head_Some_elem_of in Hc. apply list_elem_of_filter in Hc as [_ Hc].
  apply elem_of_app in Hc as [Hc|Hc].
  - rewrite <- (take_drop (S pos) names_pool). apply elem_of_app. by right.
  - rewrite <- (take_drop pos names_pool). apply elem_of_app. by left.
Qed.

Lemma bump_bread_bro_total (hymn pool_bro : list pyval) (positions : list nat) :
  ∀ bread_bro : list pyval,
    (∀ x, x ∈ bread_bro → x ∈ pool_bro) →
    (∀ i, i ∈ positions → (i < length bread_bro)%nat) →
    ∃ bread_bro',
      bump_bread_bro hymn pool_bro positions bread_bro = Ok bread_bro'
      ∧ (∀ x, x ∈ bread_bro' → x ∈ pool_bro)
      ∧ length bread_bro' = length bread_bro.
Proof.
  induction positions as [|i rest IH]; intros bread_bro Hsub Hpos.
  { by exists bread_bro. }
  assert (i < length bread_bro)%nat as Hi by (apply Hpos; by left).
  destruct (lookup_lt_is_Some_2 bread_bro i Hi) as [person Hperson].
  cbn [bump_bread_bro].
  rewrite (getitem_lookup bread_bro (Z.of_nat i) person);
    [|lia|by rewrite Nat2Z.id].
  cbn [mbind result_bind].
  assert (∀ j, j ∈ rest → (j < length bread_bro)%nat) as Hrest
    by (intros j Hj; apply Hpos; by right).
  destruct (bool_decide (person ∈ hymn)); [|by apply IH].
  destruct (bump_one_in_pool [person] pool_bro
              (list_to_set (hymn ++ bread_bro)) person) as (b & -> & Hb).
  { done. }
  { apply Hsub. by eapply list_elem_of_lookup_2. }
  cbn [mbind result_bind].
  destruct (IH (<[i := b]> bread_bro)) as (bb' & Hrun & Hsub' & Hlen).
  - intros x Hx. apply list_elem_of_lookup in Hx as [j Hj].
    destruct (decide (i = j)) as [->|Hne].
    + rewrite list_lookup_insert_eq in Hj by done. by simplify_eq.
    + rewrite list_lookup_insert_ne in Hj by done.
      apply Hsub. by eapply list_elem_of_lookup_2.
  - intros j Hj. rewrite length_insert. by apply Hrest.
  - exists bb'. rewrite length_insert in Hlen. done.
Qed.

(** ** The week mode *)

Lemma mod2_odd (m : Z) : m `mod` 2 = 1 ↔ Z.Odd m.
Proof.
  split.
  - intros H. exists (m `div` 2). pose proof (Z.div_mod m 2). lia.
  - intros [k ->]. symmetry. apply (Z.mod_unique _ _ k); lia.
Qed.

Lemma is_first_monday_odd_month_spec (today : date) :
  is_first_monday_odd_month today = true ↔
  Z.Odd (month today) ∧ 1 ≤ day today ≤ 7 ∧ weekday today = 0.
Proof.
  unfold is_first_monday_odd_month.
  rewrite !andb_true_iff, Z.eqb_eq, Z.eqb_eq, Z.leb_le, Z.leb_le, mod2_odd.
  tauto.
Qed.

Lemma is_special_week_run (today : date) (state : State) :
  ∃ special, is_special_week today state = (Ok special, state).
Proof.
  unfold is_special_week, mbind, M_bind, get, mret, M_ret.
  repeat case_decide; eauto.
Qed.

(** C4. The week-mode decision is true under the override "special", false
    under the override "normal", and otherwise true exactly when the month
    number is odd, the day of the month is in [1,7] and the date is a Monday;
    it never raises and never touches the state. *)
Theorem is_special_week_decides (state : State) (today : date) :
  ∃ special : bool,
    is_special_week today state = (Ok special, state)
    ∧ (override state = PyStr "special" → special = true)
    ∧ (override state = PyStr "normal" → special = false)
    ∧ (override state ≠ PyStr "special" → override state ≠ PyStr "normal" →
       (special = true ↔
        Z.Odd (month today) ∧ 1 ≤ day today ≤ 7 ∧ weekday today = 0)).
Proof.
  unfold is_special_week, mbind, M_bind, get, mret, M_ret.
  destruct (decide (override state = PyStr "special")) as [Hs|Hs].
  - exists true. split; [done|]. split; [done|]. split; [|done].
    intros Hn. rewrite Hs in Hn. discriminate.
  - destruct (decide (override state = PyStr "normal")) as [Hn|Hn].
    + exists false. repeat split; done.
    + exists (is_first_monday_odd_month today).
      split; [done|]. split; [done|]. split; [done|].
      intros _ _. apply is_first_monday_odd_month_spec.
Qed.

(** A Monday whose day of the month is at most 7 is the first Monday of its
    month, and conversely. *)
Lemma first_monday_of_month (d : date) :
  1 ≤ day d →
  (weekday d = 0 ∧ day d ≤ 7) ↔
  (weekday d = 0 ∧
   ∀ e, 1 ≤ e < day d →
     weekday {| year := year d; month := month d; day := e |} ≠ 0).
Proof.
  intros Hd. unfold weekday, toordinal. simpl.
  set (base := days_before_year (year d) + days_before_month (year d) (month d)).
  split.
  - intros [Hm H7]. split; [done|]. intros e He Hm'.
    pose proof (Z.div_mod (base + day d + 6) 7 ltac:(lia)).
    pose proof (Z.div_mod (base + e + 6) 7 ltac:(lia)).
    lia.
  - intros [Hm Hfirst]. split; [done|].
    destruct (Z_le_dec (day d) 7) as [|Hgt]; [done|].
    exfalso. apply (Hfirst (day d - 7)); [lia|].
    replace (base + (day d - 7) + 6) with (base + day d + 6 + (-1) * 7) by lia.
    by rewrite Z_mod_plus_full.
Qed.

Example special_first_monday_of_march :
  is_special_week {| year := 2024; month := 3; day := 4 |}
    {| indexes := ∅; override := PyNone |}
  = (Ok true, {| indexes := ∅; override := PyNone |}).
Proof. reflexivity. Qed.

Example normal_first_monday_of_april :
  fst (is_special_week {| year := 2022; month := 4; day := 4 |}
         {| indexes := ∅; override := PyNone |}) = Ok false.
Proof. reflexivity. Qed.

Example special_forced_by_override :
  fst (is_special_week {| year := 2022; month := 4; day := 5 |}
         {| indexes := ∅; override := PyStr "special" |}) = Ok true.
Proof. reflexivity. Qed.

(** ** Persisted state *)

(** [load_state] by the content of the state file. *)
Lemma load_state_unfold (config : gmap string role) (d : disk) :
  load_state config d =
    match STATE_FILE d with
    | None =>
        (Ok (DEFAULT_STATE config),
         {| csv_files := csv_files d;
            STATE_FILE := Some (Json (DEFAULT_STATE config));
            THIS_WEEK_FILE := THIS_WEEK_FILE d |})
    | Some (Json state) => (Ok state, d)
    | Some Garbled => (Raise JSONDecodeError, d)
    | Some Unreadable => (Raise OSError, d)
    end.
Proof.
  unfold load_state, mbind, M_bind, get, save_state, put, lift, mret, M_ret.
  destruct (STATE_FILE d) as [[state| |]|] eqn:E; simpl; rewrite ?E; done.
Qed.

(** C7, amended. A missing state file yields the default state (every
    configured cursor zero, override unset) and stores it; a stored state is
    returned as it is; a state file that is corrupt or unreadable makes
    loading fail with the decoding or read error, the file left as it was. *)
Theorem load_state_cases (config : gmap string role) (d : disk) :
  load_state config d =
    match STATE_FILE d with
    | None =>
        (Ok (DEFAULT_STATE config),
         {| csv_files := csv_files d;
            STATE_FILE := Some (Json (DEFAULT_STATE config));
            THIS_WEEK_FILE := THIS_WEEK_FILE d |})
    | Some (Json state) => (Ok state, d)
    | Some Garbled => (Raise JSONDecodeError, d)
    | Some Unreadable => (Raise OSError, d)
    end
  ∧ (∀ key, indexes (DEFAULT_STATE config) !! key = (λ _, 0) <$> config !! key)
  ∧ override (DEFAULT_STATE config) = PyNone.
Proof.
  split; [|split].
  - apply load_state_unfold.
  - intros key. unfold DEFAULT_STATE. simpl. apply lookup_fmap.
  - done.
Qed.

(** C7 as stated fails: a state file that does not decode is not replaced by
    the default state; loading raises. *)
Lemma load_state_corrupt_counterexample :
  load_state LIST_CONFIG
    {| csv_files := sample_files; STATE_FILE := Some Garbled;
       THIS_WEEK_FILE := None |}
  = (Raise JSONDecodeError,
     {| csv_files := sample_files; STATE_FILE := Some Garbled;
        THIS_WEEK_FILE := None |})
  ∧ fst (load_state LIST_CONFIG
           {| csv_files := sample_files; STATE_FILE := Some Garbled;
              THIS_WEEK_FILE := None |})
    ≠ Ok (DEFAULT_STATE LIST_CONFIG).
Proof. split; [reflexivity | discriminate]. Qed.

(** ** The status query *)

(** The status branch of [handle_message], by the outcome of [load_state]. *)
Lemma handle_message_status (config : gmap string role) (text : string)
    (today : date) (d : disk) :
  String.prefix "!status" (strip text) = true →
  handle_message config text today d =
    match load_state config d with
    | (Ok state, d1) =>
        match fst (is_special_week today state) with
        | Ok special =>
            (Ok [Reply ("Current mode: " +:+
                        (if special then "Special" else "Normal"))], d1)
        | Raise e => (Raise e, d1)
        end
    | (Raise e, d1) => (Raise e, d1)
    end.
Proof.
  intros Hcmd. unfold handle_message. rewrite Hcmd.
  unfold mbind, M_bind, lift, mret, M_ret.
  destruct (load_state config d) as [[state|e] d1]; [|done].
  by destruct (fst (is_special_week today state)) as [[]|].
Qed.

(** C9, amended. A status query leaves the roster files and the snapshot as
    they were and a state file that exists as it was (a missing one is
    created holding the default state); its reply names the mode that the
    stored state and the date read from the clock give; a second query that
    reads the same date gives the same reply (or raises the same error); and
    a second query, on whatever date, changes nothing any more. *)
Theorem status_query_repeatable (config : gmap string role) (text : string)
    (today : date) (d d1 : disk) (r : result (list action)) :
  String.prefix "!status" (strip text) = true →
  handle_message config text today d = (r, d1) →
  handle_message config text today d1 = (r, d1)
  ∧ csv_files d1 = csv_files d
  ∧ THIS_WEEK_FILE d1 = THIS_WEEK_FILE d
  ∧ STATE_FILE d1 = match STATE_FILE d with
                    | None => Some (Json (DEFAULT_STATE config))
                    | Some f => Some f
                    end
  ∧ (∀ state, STATE_FILE d1 = Some (Json state) →
       ∃ special, is_special_week today state = (Ok special, state)
         ∧ r = Ok [Reply ("Current mode: " +:+
                          (if special then "Special" else "Normal"))])
  ∧ (∀ later, snd (handle_message config text later d1) = d1).
Proof.
  intros Hcmd Hrun.
  assert (∀ day state f,
    STATE_FILE f = Some (Json state) →
    ∃ special, is_special_week day state = (Ok special, state)
      ∧ handle_message config text day f
        = (Ok [Reply ("Current mode: " +:+
                      (if special then "Special" else "Normal"))], f)) as Hstored.
  { intros day state f Hf. rewrite (handle_message_status _ _ _ _ Hcmd).
    rewrite load_state_unfold, Hf.
    destruct (is_special_week_run day state) as [special Hsp].
    exists special. by rewrite Hsp. }
  rewrite (handle_message_status _ _ _ _ Hcmd), load_state_unfold in Hrun.
  destruct (STATE_FILE d) as [[state| |]|] eqn:E.
  - destruct (Hstored today state d E) as (special & Hsp & Hd).
    rewrite Hsp in Hrun. cbn [fst] in Hrun. injection Hrun as <- <-.
    split; [done|]. split; [done|]. split; [done|]. split; [done|].
    split.
    + intros state' Hs'. rewrite E in Hs'. injection Hs' as <-. eauto.
    + intros later. destruct (Hstored later state d E) as (sp & _ & ->). done.
  - injection Hrun as <- <-.
    assert (∀ day, handle_message config text day d = (Raise JSONDecodeError, d))
      as Hraise.
    { intros day. rewrite (handle_message_status _ _ _ _ Hcmd).
      by rewrite load_state_unfold, E. }
    split; [apply Hraise|]. split; [done|]. split; [done|]. split; [done|].
    split; [intros state' Hs'; congruence|].
    intros later. by rewrite Hraise.
  - injection Hrun as <- <-.
    assert (∀ day, handle_message config text day d = (Raise OSError, d))
      as Hraise.
    { intros day. rewrite (handle_message_status _ _ _ _ Hcmd).
      by rewrite load_state_unfold, E. }
    split; [apply Hraise|]. split; [done|]. split; [done|]. split; [done|].
    split; [intros state' Hs'; congruence|].
    intros later. by rewrite Hraise.
  - destruct (is_special_week_run today (DEFAULT_STATE config))
      as [special Hsp].
    rewrite Hsp in Hrun. cbn [fst] in Hrun. injection Hrun as <- <-.
    set (d1 := {| csv_files := csv_files d;
                  STATE_FILE := Some (Json (DEFAULT_STATE config));
                  THIS_WEEK_FILE := THIS_WEEK_FILE d |}).
    assert (STATE_FILE d1 = Some (Json (DEFAULT_STATE config))) as E1 by done.
    destruct (Hstored today _ d1 E1) as (sp & Hsp' & Hd1).
    assert (sp = special) as -> by congruence.
    split; [done|]. split; [done|]. split; [done|]. split; [done|].
    split.
    + intros state' Hs'. injection Hs' as <-. eauto.
    + intros later. destruct (Hstored later _ d1 E1) as (sp & _ & ->). done.
Qed.

Lemma status_query_repeatable_witness :
  handle_message LIST_CONFIG "!status" {| year := 2025; month := 3; day := 3 |}
    {| csv_files := sample_files;
       STATE_FILE := Some (Json (DEFAULT_STATE LIST_CONFIG));
       THIS_WEEK_FILE := None |}
  = (Ok [Reply "Current mode: Special"],
     {| csv_files := sample_files;
        STATE_FILE := Some (Json (DEFAULT_STATE LIST_CONFIG));
        THIS_WEEK_FILE := None |})
  ∧ sample_files = sample_files
  ∧ (None : option (stored (gmap string string))) = None
  ∧ Some (Json (DEFAULT_STATE LIST_CONFIG))
    = Some (Json (DEFAULT_STATE LIST_CONFIG))
  ∧ (∀ state, Some (Json (DEFAULT_STATE LIST_CONFIG)) = Some (Json state) →
       ∃ special,
         is_special_week {| year := 2025; month := 3; day := 3 |} state
         = (Ok special, state)
         ∧ Ok [Reply "Current mode: Special"]
           = Ok [Reply ("Current mode: " +:+
                        (if special then "Special" else "Normal"))])
  ∧ (∀ later,
       snd (handle_message LIST_CONFIG "!status" later
              {| csv_files := sample_files;
                 STATE_FILE := Some (Json (DEFAULT_STATE LIST_CONFIG));
                 THIS_WEEK_FILE := None |})
       = {| csv_files := sample_files;
            STATE_FILE := Some (Json (DEFAULT_STATE LIST_CONFIG));
            THIS_WEEK_FILE := None |}).
Proof.
  apply (status_query_repeatable LIST_CONFIG "!status"
           {| year := 2025; month := 3; day := 3 |}
           {| csv_files := sample_files; STATE_FILE := None;
              THIS_WEEK_FILE := None |});
    reflexivity.
Defined.

(** C9 as stated fails: with no override, a query on Monday 3 March 2025
    answers Special and the next query, on Tuesday 4 March 2025, answers
    Normal, with no weekly job in between and nothing changed in the data
    directory. *)
Lemma status_query_counterexample :
  let d0 := {| csv_files := sample_files;
               STATE_FILE := Some (Json (DEFAULT_STATE LIST_CONFIG));
               THIS_WEEK_FILE := None |} in
  let first := handle_message LIST_CONFIG "!status"
                 {| year := 2025; month := 3; day := 3 |} d0 in
  let second := handle_message LIST_CONFIG "!status"
                  {| year := 2025; month := 3; day := 4 |} (snd first) in
  fst first = Ok [Reply "Current mode: Special"]
  ∧ fst second = Ok [Reply "Current mode: Normal"]
  ∧ snd first = d0
  ∧ snd second = d0
  ∧ fst first ≠ fst second.
Proof. repeat split; try reflexivity. vm_compute. discriminate. Qed.

(** ** The composed text *)

Lemma append_assoc (a b c : string) : (a +:+ b) +:+ c = a +:+ (b +:+ c).
Proof.
  induction a as [|x a IH]; [done|].
  change ((String x a +:+ b) +:+ c) with (String x ((a +:+ b) +:+ c)).
  by rewrite IH.
Qed.

Lemma join_names (sep : string) (names : list string) :
  join sep (PyStr <$> names) = Ok (String.concat sep names).
Proof.
  induction names as [|s names IH]; [done|].
  destruct names as [|s' names']; [done|].
  change (join sep (PyStr <$> s :: s' :: names'))
    with (r ← join sep (PyStr <$> s' :: names'); Ok (s +:+ sep +:+ r)).
  by rewrite IH.
Qed.

Lemma first_or_empty_names (names : list string) :
  first_or_empty (PyStr <$> names) = first_name names.
Proof. by destruct names. Qed.

(** C5. For all selected names: in a special week the text is the sharing
    line and the Saturday pianist line only; in a normal week it is the eight
    labelled lines, with several names joined by a full-width space, single
    roles showing their first name, the pianist value present only for
    exactly two names, and an empty value for a role without selection. *)
Theorem message_text_renders (special : bool)
    (hymn bread_bro bread_sis baking sharing pianist topic url : list string) :
  message_text special (PyStr <$> hymn) (PyStr <$> bread_bro)
    (PyStr <$> bread_sis) (PyStr <$> baking) (PyStr <$> sharing)
    (PyStr <$> pianist) (PyStr <$> topic) (PyStr <$> url)
  = Ok (if special then special_text sharing pianist
        else normal_text (role_values hymn bread_bro bread_sis baking sharing
                            pianist topic url)).
Proof.
  unfold message_text. destruct special.
  - rewrite !first_or_empty_names. unfold special_text.
    cbn [String.concat]. by rewrite !append_assoc.
  - rewrite !join_names, !first_or_empty_names. cbn [mbind result_bind].
    f_equal. unfold normal_text, role_values, line_labels.
    cbn [zip_with String.concat].
    assert (match PyStr <$> pianist with
            | [p0; p1] => "（六）" +:+ format p0 +:+ "　（日）" +:+ format p1
            | _ => ""
            end = pianist_value pianist) as ->.
    { unfold pianist_value.
      destruct pianist as [|a [|b [|c rest]]]; done. }
    by rewrite !append_assoc.
Qed.

(** The text of [message_text] on selections that hold names only. *)
Lemma message_text_names (special : bool)
    (hymn bread_bro bread_sis baking sharing pianist topic url : list string) :
  message_text special (PyStr <$> hymn) (PyStr <$> bread_bro)
    (PyStr <$> bread_sis) (PyStr <$> baking) (PyStr <$> sharing)
    (PyStr <$> pianist) (PyStr <$> topic) (PyStr <$> url)
  = Ok (if special then special_text sharing pianist
        else normal_text (role_values hymn bread_bro bread_sis baking sharing
                            pianist topic url)).
Proof.
  unfold message_text. destruct special.
  - rewrite !first_or_empty_names. unfold special_text.
    cbn [String.concat]. by rewrite !append_assoc.
  - rewrite !join_names, !first_or_empty_names. cbn [mbind result_bind].
    f_equal. unfold normal_text, role_values, line_labels.
    cbn [zip_with String.concat].
    assert (match PyStr <$> pianist with
            | [p0; p1] => "（六）" +:+ format p0 +:+ "　（日）" +:+ format p1
            | _ => ""
            end = pianist_value pianist) as ->.
    { unfold pianist_value.
      destruct pianist as [|a [|b [|c rest]]]; done. }
    by rewrite !append_assoc.
Qed.

Example normal_text_all_empty :
  normal_text (role_values [] [] [] [] [] [] [] [])
  = "帶詩歌：" +:+ nl +:+ "餅杯（弟兄）：" +:+ nl +:+ "餅杯（姊妹）：" +:+ nl +:+
    "做餅：" +:+ nl +:+ "分享：" +:+ nl +:+ "司琴：" +:+ nl +:+
    "專題分享：" +:+ nl +:+ "題目：".
Proof. reflexivity. Qed.

Example pianist_value_one_name : pianist_value ["X"] = "".
Proof. reflexivity. Qed.

Example pianist_value_two_names :
  pianist_value ["X"; "Y"] = "（六）X　（日）Y".
Proof. reflexivity. Qed.

(** ** Running the resolver *)

Section Resolver.
Variable config : gmap string role.
Variable files : gmap string roster_file.

(** In the composer the selections come from the very rosters that serve as
    substitution pools: then the resolver cannot fail, and it returns
    selections of the same sizes, still drawn from those rosters. *)
Lemma resolve_duplicates_total (pool_bro pool_sharing pool_pianist : list pyval)
    (hymn bread_bro sharing topic pianist : list pyval) (state : State) :
  load_csv_list config files "bread_bro" = Ok pool_bro →
  load_csv_list config files "sharing" = Ok pool_sharing →
  load_csv_list config files "pianist" = Ok pool_pianist →
  (∀ x, x ∈ bread_bro → x ∈ pool_bro) →
  (∀ x, x ∈ sharing → x ∈ pool_sharing) →
  (∀ x, x ∈ pianist → x ∈ pool_pianist) →
  ∃ bread_bro' sharing' pianist',
    resolve_duplicates config files hymn bread_bro sharing topic pianist state
      = (Ok (hymn, bread_bro', sharing', topic, pianist'), state)
    ∧ (∀ x, x ∈ bread_bro' → x ∈ pool_bro)
    ∧ length bread_bro' = length bread_bro
    ∧ (∀ x, x ∈ sharing' → x ∈ pool_sharing)
    ∧ length sharing' = length sharing
    ∧ (∀ x, x ∈ pianist' → x ∈ pool_pianist)
    ∧ length pianist' = length pianist.
Proof.
  intros Hbro Hsh Hpi Sbro Ssh Spi.
  destruct (bump_bread_bro_total hymn pool_bro (seq 0 (length bread_bro))
              bread_bro Sbro) as (bb' & Hbb & Sbb & Lbb).
  { intros i Hi. apply elem_of_seq in Hi. lia. }
  assert (∃ sh',
    match sharing, topic with
    | s0 :: sharing_rest, t0 :: _ =>
        if decide (s0 = t0)
        then b ← bump_one sharing pool_sharing (list_to_set topic);
             Ok (b :: sharing_rest)
        else Ok sharing
    | _, _ => Ok sharing
    end = Ok sh' ∧ (∀ x, x ∈ sh' → x ∈ pool_sharing)
    ∧ length sh' = length sharing) as (sh' & Hsh' & Ssh' & Lsh).
  { destruct sharing as [|s0 rest]; [by exists []|].
    destruct topic as [|t0 ?]; [by eexists|].
    destruct (decide (s0 = t0)); [|by eexists].
    destruct (bump_one_in_pool (s0 :: rest) pool_sharing
                (list_to_set (t0 :: topic)) s0) as (b & -> & Hb).
    { done. }
    { apply Ssh. by left. }
    exists (b :: rest). split; [done|]. split; [|done].
    intros x Hx. apply elem_of_cons in Hx as [->|Hx]; [done|].
    apply Ssh. by right. }
  assert (∃ pi',
    match pianist with
    | [p0; p1] =>
        if decide (p0 = p1)
        then b ← bump_one [p1] pool_pianist (list_to_set [p0]);
             Ok [p0; b]
        else Ok pianist
    | _ => Ok pianist
    end = Ok pi' ∧ (∀ x, x ∈ pi' → x ∈ pool_pianist)
    ∧ length pi' = length pianist) as (pi' & Hpi' & Spi' & Lpi).
  { destruct pianist as [|p0 [|p1 [|p2 rest]]]; try by eexists.
    destruct (decide (p0 = p1)); [|by eexists].
    destruct (bump_one_in_pool [p1] pool_pianist (list_to_set [p0]) p1)
      as (b & -> & Hb).
    { done. }
    { apply Spi. right. by left. }
    exists [p0; b]. split; [done|]. split; [|done].
    intros x Hx. apply elem_of_cons in Hx as [->|Hx]; [apply Spi; by left|].
    apply elem_of_cons in Hx as [->|Hx]; [done|]. by apply elem_of_nil in Hx. }
  exists bb', sh', pi'.
  split; [|done].
  unfold resolve_duplicates, mbind, M_bind, lift, mret, M_ret.
  unfold mbind in Hsh', Hpi'.
  rewrite Hbro. cbv beta iota. rewrite Hbb. cbv beta iota.
  rewrite Hsh. cbv beta iota. rewrite Hsh'. cbv beta iota.
  rewrite Hpi. cbv beta iota. rewrite Hpi'. done.
Qed.

(** C8. Whatever the selections and whatever the outcome, conflict
    resolution hands back the state object exactly as it received it: every
    rotation cursor and the override are unchanged ([bump_one] itself never
    sees the state). *)
Theorem resolve_duplicates_keeps_state
    (hymn bread_bro sharing topic pianist : list pyval) (state : State) :
  snd (resolve_duplicates config files hymn bread_bro sharing topic pianist state)
  = state.
Proof.
  unfold resolve_duplicates, mbind, M_bind, lift, mret, M_ret.
  repeat match goal with
         | |- context [match ?r with Ok _ => _ | Raise _ => _ end] =>
             destruct r; try done
         end.
Qed.
End Resolver.

(** ** Running the composer *)

Section Stages.
Variable config : gmap string role.
Variable files : gmap string roster_file.

(** The eight calls in a row. *)
Lemma rotation_stage (keys : list string) (advance : bool) (state : State) :
  NoDup keys →
  (∀ key, key ∈ keys → ∃ names, load_csv_list config files key = Ok names) →
  (∀ key names, key ∈ keys → load_csv_list config files key = Ok names →
     names ≠ [] → is_Some (indexes state !! key)) →
  ∃ sels state',
    mapM (λ key, get_list_with_advance config files key advance) keys state
      = (Ok sels, state')
    ∧ Forall2 (λ key picked, ∃ names,
                 load_csv_list config files key = Ok names
                 ∧ (∀ x, x ∈ picked → x ∈ names)
                 ∧ (names = [] → picked = [])) keys sels
    ∧ override state' = override state
    ∧ (∀ k, k ∉ keys → indexes state' !! k = indexes state !! k)
    ∧ (∀ key names, key ∈ keys → load_csv_list config files key = Ok names →
         (names = [] ∨ advance = false →
          indexes state' !! key = indexes state !! key)
         ∧ (advance = true → names ≠ [] →
            ∀ r c, config !! key = Some r → indexes state !! key = Some c →
              indexes state' !! key
              = Some ((c + Z.of_nat (count r)) `mod` Z.of_nat (length names)))).
Proof.
  intros Hnodup. revert state.
  induction Hnodup as [|key keys Hnotin Hnodup IH]; intros state Hcfg Hidx.
  { exists [], state. split; [done|]. split; [constructor|]. split; [done|].
    split; [done|]. intros key names Hin. by apply elem_of_nil in Hin. }
  destruct (Hcfg key) as [names Hnames]; [by left|].
  destruct (load_csv_list_configured config files key names Hnames) as [r Hr].
  destruct (get_list_with_advance_step config files key r names advance state
              Hr Hnames)
    as (picked & st1 & Hrun & Hsub & Hempty & Hov & Hframe & Hsame & Hadv).
  { intros Hne. eapply Hidx; [by left|done..]. }
  destruct (IH st1) as (sels & st2 & Hrest & Hall & Hov2 & Hframe2 & Hkeys).
  { intros k Hk. apply Hcfg. by right. }
  { intros k ns Hk Hns Hne. rewrite Hframe; [|intros ->; done].
    eapply Hidx; [by right|done..]. }
  exists (picked :: sels), st2. split; [|split; [|split; [|split]]].
  - cbn [mapM]. unfold mbind, M_bind at 1. rewrite Hrun.
    unfold mbind, M_bind at 1. rewrite Hrest. done.
  - constructor; [|done]. exists names. done.
  - congruence.
  - intros k Hk. apply not_elem_of_cons in Hk as [Hne Hk].
    rewrite Hframe2, Hframe; done.
  - intros k ns Hk Hns. apply elem_of_cons in Hk as [->|Hk].
    + assert (ns = names) as -> by congruence.
      rewrite Hframe2 by done. split.
      * intros H. by rewrite (Hsame H).
      * intros Ha Hne r' c Hr' Hc. assert (r' = r) as -> by congruence.
        by apply Hadv.
    + assert (k ≠ key) as Hne by (intros ->; done).
      destruct (Hkeys k ns Hk Hns) as [H1 H2]. split.
      * intros H. rewrite H1, Hframe; done.
      * intros Ha Hnn r' c Hr' Hc. apply H2; [done..|]. by rewrite Hframe.
Qed.
End Stages.

Lemma role_keys_NoDup : NoDup role_keys.
Proof. apply (bool_decide_unpack _). by vm_compute. Qed.

Section Composition.
Variable config : gmap string role.
Variable files : gmap string roster_file.

(** [compose_message] is the rotation of the eight roles in order, then the
    resolver, the week mode and the text. *)
Lemma compose_message_stages (advance : bool) (today : date) (state : State) :
  compose_message config files advance today state =
    match mapM (λ key, get_list_with_advance config files key advance)
               role_keys state with
    | (Ok [hymn; bread_bro; bread_sis; baking; sharing; pianist; topic; url],
       st1) =>
        match resolve_duplicates config files hymn bread_bro sharing topic
                pianist st1 with
        | (Ok (hymn', bread_bro', sharing', topic', pianist'), st2) =>
            match is_special_week today st2 with
            | (Ok special, st3) =>
                (message_text special hymn' bread_bro' bread_sis baking
                   sharing' pianist' topic' url, st3)
            | (Raise e, st3) => (Raise e, st3)
            end
        | (Raise e, st2) => (Raise e, st2)
        end
    | (Ok _, st1) => (Raise TypeError, st1)
    | (Raise e, st1) => (Raise e, st1)
    end.
Proof.
  unfold compose_message, role_keys. cbn [mapM].
  unfold mbind, M_bind, mret, M_ret, lift.
  repeat match goal with
         | |- context [get_list_with_advance config files ?k advance ?s] =>
             destruct (get_list_with_advance config files k advance s)
               as [[?|?] ?]; try done
         end.
  destruct (resolve_duplicates _ _ _ _ _ _ _ _) as [[[[[[? ?] ?] ?] ?]|?] ?];
    [|done].
  by destruct (is_special_week _ _) as [[?|?] ?].
Qed.

(** The composer runs to completion once the roster of every role loads and
    every role with a non-empty roster has a cursor. *)
Lemma compose_message_run (advance : bool) (today : date) (state : State) :
  (∀ key, key ∈ role_keys → ∃ names, load_csv_list config files key = Ok names) →
  (∀ key names, key ∈ role_keys → load_csv_list config files key = Ok names →
     names ≠ [] → is_Some (indexes state !! key)) →
  ∃ (hymn bread_bro bread_sis baking sharing pianist topic url : list string)
    (state' : State) (special : bool),
    compose_message config files advance today state
      = (Ok (if special then special_text sharing pianist
             else normal_text (role_values hymn bread_bro bread_sis baking
                                 sharing pianist topic url)), state')
    ∧ is_special_week today state' = (Ok special, state')
    ∧ Forall2 (λ key names, load_csv_list config files key = Ok [] → names = [])
        role_keys
        [hymn; bread_bro; bread_sis; baking; sharing; pianist; topic; url]
    ∧ override state' = override state
    ∧ (∀ key names, key ∈ role_keys → load_csv_list config files key = Ok names →
         (names = [] ∨ advance = false →
          indexes state' !! key = indexes state !! key)
         ∧ (advance = true → names ≠ [] →
            ∀ r c, config !! key = Some r → indexes state !! key = Some c →
              indexes state' !! key
              = Some ((c + Z.of_nat (count r)) `mod` Z.of_nat (length names)))).
Proof.
  intros Hcfg Hidx.
  destruct (rotation_stage config files role_keys advance state
              role_keys_NoDup Hcfg Hidx)
    as (sels & st1 & Hrot & Hsels & Hov & _ & Hcur).
  rewrite compose_message_stages, Hrot.
  unfold role_keys in Hsels.
  repeat match goal with
         | H : Forall2 _ (_ :: _) _ |- _ =>
             apply Forall2_cons_inv_l in H as (? & ? & (? & ? & ? & ?) & ? & ->)
         | H : Forall2 _ [] _ |- _ => apply Forall2_nil_inv_l in H as ->
         end.
  repeat match goal with
         | H : load_csv_list config files _ = Ok ?names |- _ =>
             lazymatch goal with
             | _ : names = PyStr <$> _ |- _ => fail
             | _ => let l := fresh "l" in let E := fresh "E" in
                    destruct (load_csv_list_names config files _ _ H) as [l E]
             end
         end.
  match goal with
  | Hbb : load_csv_list config files "bread_bro" = Ok ?pb,
    Hsh : load_csv_list config files "sharing" = Ok ?ps,
    Hpi : load_csv_list config files "pianist" = Ok ?pp
    |- context [resolve_duplicates config files ?h ?bb ?sh ?to ?pi st1] =>
      destruct (resolve_duplicates_total config files pb ps pp h bb sh to pi st1
                  Hbb Hsh Hpi)
        as (bb' & sh' & pi' & -> & Sbb & Lbb & Ssh & Lsh & Spi & Lpi);
        [done..|]
  end.
  destruct (is_special_week_run today st1) as [special Hspecial].
  rewrite Hspecial.
  repeat match goal with
         | H : ∀ x, x ∈ ?xs → x ∈ ?names, E : ?names = PyStr <$> ?l |- _ =>
             let ys := fresh "ys" in let Ey := fresh "Ey" in
             assert (∃ ys, xs = PyStr <$> ys) as [ys Ey]
               by (apply (names_subset xs l); by rewrite <- E);
             clear H
         end.
  subst.
  repeat match goal with
         | H : length (PyStr <$> _) = length (PyStr <$> _) |- _ =>
             rewrite !length_fmap in H
         end.
  rewrite message_text_names.
  eexists _, _, _, _, _, _, _, _, st1, special.
  split; [reflexivity|]. split; [done|]. split; [|done].
  unfold role_keys. repeat constructor.
  all: intros Hempty.
  all: match goal with
       | Hk : load_csv_list config files ?k = Ok (PyStr <$> ?l),
         He : load_csv_list config files ?k = Ok [] |- _ =>
           rewrite Hk in He; injection He as He;
           apply fmap_nil_inv in He; subst l
       end.
  all: simpl in *.
  all: repeat match goal with
              | H : [] = [] → _ |- _ => specialize (H eq_refl)
              end.
  all: repeat match goal with
              | H : PyStr <$> ?l = [] |- _ => apply fmap_nil_inv in H; subst l
              end.
  all: simpl in *.
  all: repeat match goal with
              | H : length ?l = 0%nat |- _ => apply nil_length_inv in H; subst l
              end.
  all: done.
Qed.

(** C6. With every role configured, every roster file that exists readable
    as UTF-8 text and a cursor for every role that has names, composing
    succeeds whatever rosters are missing or empty; for each such role the
    rotator returns the empty selection without touching the state, the
    role's cursor after composing is the one before, and in a normal week
    the text still has the role's line, its label followed by an empty
    value. *)
Theorem compose_message_tolerates_empty_rosters (advance : bool) (today : date)
    (state : State) :
  (∀ key, key ∈ role_keys → is_Some (config !! key)) →
  (∀ key, key ∈ role_keys → roster_readable config files key) →
  (∀ key names, key ∈ role_keys → load_csv_list config files key = Ok names →
     names ≠ [] → is_Some (indexes state !! key)) →
  ∃ (msg : string) (state' : State) (special : bool) (values : list string),
    compose_message config files advance today state = (Ok msg, state')
    ∧ is_special_week today state' = (Ok special, state')
    ∧ length values = length role_keys
    ∧ (special = false → msg = normal_text values)
    ∧ ∀ i key, role_keys !! i = Some key →
        load_csv_list config files key = Ok [] →
        (∀ st, get_list_with_advance config files key advance st = (Ok [], st))
        ∧ indexes state' !! key = indexes state !! key
        ∧ values !! i = Some "".
Proof.
  intros Hcfg Hread Hidx.
  destruct (compose_message_run advance today state) as
    (hymn & bread_bro & bread_sis & baking & sharing & pianist & topic & url
     & state' & special & Hrun & Hspecial & Hempty & _ & Hcur); [|done|].
  { intros key Hk. apply load_csv_list_readable; auto. }
  exists (if special then special_text sharing pianist
          else normal_text (role_values hymn bread_bro bread_sis baking sharing
                              pianist topic url)),
    state', special,
    (role_values hymn bread_bro bread_sis baking sharing pianist topic url).
  split; [done|]. split; [done|]. split; [done|].
  split; [by intros ->|].
  intros i key Hi Hload. split; [|split].
  - intros st. unfold get_list_with_advance, mbind, M_bind, lift.
    by rewrite Hload.
  - apply (Hcur key []); [by eapply list_elem_of_lookup_2|done|by left].
  - destruct (Forall2_lookup_l _ _ _ i key Hempty Hi) as (names & Hnames & Hnil).
    specialize (Hnil Hload). subst names.
    unfold role_keys in Hi.
    do 8 (destruct i as [|i];
          [simpl in Hnames; injection Hnames as ->; reflexivity|]).
    done.
Qed.

(** C10. When all eight rosters are non-empty (and every role is configured
    and has a cursor), an advancing compose succeeds and moves the cursor of
    every one of the eight roles by the role's count, modulo the roster
    length, whether the week turns out special or normal. *)
Theorem compose_message_advances_every_role (today : date) (state : State) :
  (∀ key, key ∈ role_keys → is_Some (config !! key)) →
  (∀ key, key ∈ role_keys →
     ∃ names, load_csv_list config files key = Ok names ∧ names ≠ []) →
  (∀ key, key ∈ role_keys → is_Some (indexes state !! key)) →
  ∃ (msg : string) (state' : State) (special : bool),
    compose_message config files true today state = (Ok msg, state')
    ∧ is_special_week today state' = (Ok special, state')
    ∧ ∀ key r names c,
        key ∈ role_keys → config !! key = Some r →
        load_csv_list config files key = Ok names →
        indexes state !! key = Some c →
        indexes state' !! key
        = Some ((c + Z.of_nat (count r)) `mod` Z.of_nat (length names)).
Proof.
  intros Hcfg Hne Hidx.
  destruct (compose_message_run true today state)
    as (hymn & bread_bro & bread_sis & baking & sharing & pianist & topic & url
        & state' & special & Hrun & Hspecial & _ & _ & Hcur).
  { intros key Hk. destruct (Hne key Hk) as (names & Hnames & _). eauto. }
  { intros key names Hk _ _. by apply Hidx. }
  eexists _, state', special. split; [exact Hrun|]. split; [done|].
  intros key r names c Hk Hr Hload Hc.
  apply (Hcur key names Hk Hload); try done.
  destruct (Hne key Hk) as (names' & Hnames & Hnn). congruence.
Qed.
End Composition.

(** ** The shipped configuration *)

Lemma LIST_CONFIG_roles (key : string) :
  key ∈ role_keys → is_Some (LIST_CONFIG !! key).
Proof.
  intros Hk.
  apply (proj1 (Forall_forall (λ k, is_Some (LIST_CONFIG !! k)) role_keys));
    [|done].
  apply (bool_decide_unpack _). by vm_compute.
Qed.

Lemma DEFAULT_STATE_cursors (key : string) :
  key ∈ role_keys → indexes (DEFAULT_STATE LIST_CONFIG) !! key = Some 0.
Proof.
  intros Hk.
  apply (proj1 (Forall_forall
                  (λ k, indexes (DEFAULT_STATE LIST_CONFIG) !! k = Some 0)
                  role_keys)); [|done].
  apply (bool_decide_unpack _). by vm_compute.
Qed.

Lemma full_files_rosters (key : string) :
  key ∈ role_keys →
  ∃ names, load_csv_list LIST_CONFIG full_files key = Ok names ∧ names ≠ [].
Proof.
  intros Hk.
  assert (Forall (λ k, match load_csv_list LIST_CONFIG full_files k with
                       | Ok (_ :: _) => True
                       | _ => False
                       end) role_keys) as Hall
    by (unfold role_keys; repeat constructor).
  rewrite Forall_forall in Hall. specialize (Hall key Hk).
  destruct (load_csv_list LIST_CONFIG full_files key) as [[|a names]|];
    [done| |done].
  by exists (a :: names).
Qed.

Lemma full_files_readable (key : string) :
  key ∈ role_keys → roster_readable LIST_CONFIG full_files key.
Proof.
  intros Hk. destruct (full_files_rosters key Hk) as (names & Hnames & _).
  by eapply load_csv_list_Ok_readable.
Qed.

Lemma sample_files_readable (key : string) :
  key ∈ role_keys → roster_readable LIST_CONFIG sample_files key.
Proof.
  intros Hk.
  assert (Forall (λ k, match load_csv_list LIST_CONFIG sample_files k with
                       | Ok _ => True
                       | Raise _ => False
                       end) role_keys) as Hall
    by (unfold role_keys; repeat constructor).
  rewrite Forall_forall in Hall. specialize (Hall key Hk).
  destruct (load_csv_list LIST_CONFIG sample_files key) as [names|] eqn:E;
    [|done].
  by eapply load_csv_list_Ok_readable.
Qed.

Lemma compose_message_tolerates_empty_rosters_witness :
  ∃ (msg : string) (state' : State) (special : bool) (values : list string),
    compose_message LIST_CONFIG sample_files true
      {| year := 2025; month := 3; day := 10 |} (DEFAULT_STATE LIST_CONFIG)
      = (Ok msg, state')
    ∧ is_special_week {| year := 2025; month := 3; day := 10 |} state'
      = (Ok special, state')
    ∧ length values = length role_keys
    ∧ (special = false → msg = normal_text values)
    ∧ ∀ i key, role_keys !! i = Some key →
        load_csv_list LIST_CONFIG sample_files key = Ok [] →
        (∀ st, get_list_with_advance LIST_CONFIG sample_files key true st
               = (Ok [], st))
        ∧ indexes state' !! key = indexes (DEFAULT_STATE LIST_CONFIG) !! key
        ∧ values !! i = Some "".
Proof.
  apply (compose_message_tolerates_empty_rosters LIST_CONFIG sample_files true
           {| year := 2025; month := 3; day := 10 |} (DEFAULT_STATE LIST_CONFIG)).
  - exact LIST_CONFIG_roles.
  - exact sample_files_readable.
  - intros key names Hk _ _. rewrite (DEFAULT_STATE_cursors key Hk). eauto.
Defined.

Lemma compose_message_advances_every_role_witness :
  ∃ (msg : string) (state' : State) (special : bool),
    compose_message LIST_CONFIG full_files true
      {| year := 2025; month := 3; day := 3 |} (DEFAULT_STATE LIST_CONFIG)
      = (Ok msg, state')
    ∧ is_special_week {| year := 2025; month := 3; day := 3 |} state'
      = (Ok special, state')
    ∧ ∀ key r names c,
        key ∈ role_keys → LIST_CONFIG !! key = Some r →
        load_csv_list LIST_CONFIG full_files key = Ok names →
        indexes (DEFAULT_STATE LIST_CONFIG) !! key = Some c →
        indexes state' !! key
        = Some ((c + Z.of_nat (count r)) `mod` Z.of_nat (length names)).
Proof.
  apply (compose_message_advances_every_role LIST_CONFIG full_files
           {| year := 2025; month := 3; day := 3 |} (DEFAULT_STATE LIST_CONFIG)).
  - exact LIST_CONFIG_roles.
  - exact full_files_rosters.
  - intros key Hk. rewrite (DEFAULT_STATE_cursors key Hk). eauto.
Defined.

(** A normal week with the baking roster missing: the baking line is there,
    with nothing after its label. *)
Example compose_normal_week :
  compose_message LIST_CONFIG sample_files true
    {| year := 2025; month := 3; day := 10 |} (DEFAULT_STATE LIST_CONFIG)
  = (Ok (normal_text ["A　B"; "D　E"; "x　y"; ""; "Q"; "（六）X　（日）X"; "P"; "u1"]),
     {| indexes :=
          <["hymn" := 2]> (<["bread_bro" := 2]> (<["sharing" := 1]>
            (<["url" := 1]> (indexes (DEFAULT_STATE LIST_CONFIG)))));
        override := PyNone |}).
Proof. vm_compute. reflexivity. Qed.

(** A special week: two lines only, yet every cursor has moved as in a
    normal week. *)
Example compose_special_week :
  compose_message LIST_CONFIG full_files true
    {| year := 2025; month := 3; day := 3 |} (DEFAULT_STATE LIST_CONFIG)
  = (Ok (special_text ["Q"] ["X"; "X"]),
     {| indexes :=
          <["hymn" := 2]> (<["bread_bro" := 2]> (<["sharing" := 1]>
            (<["baking" := 1]> (<["url" := 1]>
               (indexes (DEFAULT_STATE LIST_CONFIG))))));
        override := PyNone |}).
Proof. vm_compute. reflexivity. Qed.

(** A roster file with blanks and commas only is an empty roster. *)
Example load_csv_list_blank :
  load_csv_list LIST_CONFIG {[ "hymn.csv" := Bytes (" , ," +:+ nl) ]} "hymn" = Ok [].
Proof. vm_compute. reflexivity. Qed.

(** Text mode translates a carriage return, alone or before a line feed,
    into a line feed before the row is stripped and split. *)
Example load_csv_list_carriage_return :
  load_csv_list LIST_CONFIG
    {[ "hymn.csv" := Bytes (chr_bytes [65; 13; 66; 44; 67; 13; 10]%N) ]} "hymn"
  = Ok [PyStr (chr_bytes [65; 10; 66]%N); PyStr "C"].
Proof. vm_compute. reflexivity. Qed.

(** The decoder is strict: an overlong form, a surrogate and a stray
    continuation byte are refused, the ideographic space is accepted. *)
Example utf8_valid_examples :
  utf8_valid (chr_bytes [192; 128]%N) = false
  ∧ utf8_valid (chr_bytes [237; 160; 128]%N) = false
  ∧ utf8_valid (chr_bytes [65; 128]%N) = false
  ∧ utf8_valid (chr_bytes [227; 128]%N) = false
  ∧ utf8_valid (chr_bytes [227; 128; 128; 65]%N) = true.
Proof. repeat split. Qed.

(** A roster file that is not UTF-8, or that cannot be read, stops the
    loader, and with it the composer and the weekly job, which then saves
    nothing. *)
Example load_csv_list_not_utf8 :
  load_csv_list LIST_CONFIG {[ "hymn.csv" := Bytes (chr_bytes [65; 255]%N) ]}
    "hymn" = Raise UnicodeDecodeError.
Proof. reflexivity. Qed.

Example load_csv_list_no_access :
  load_csv_list LIST_CONFIG {[ "hymn.csv" := NoAccess ]} "hymn" = Raise OSError.
Proof. reflexivity. Qed.

Example weekly_job_not_utf8 :
  weekly_job LIST_CONFIG {| year := 2025; month := 3; day := 3 |}
    {| csv_files := <["url.csv" := Bytes (chr_bytes [255]%N)]> sample_files;
       STATE_FILE := Some (Json (DEFAULT_STATE LIST_CONFIG));
       THIS_WEEK_FILE := None |}
  = (Raise UnicodeDecodeError,
     {| csv_files := <["url.csv" := Bytes (chr_bytes [255]%N)]> sample_files;
        STATE_FILE := Some (Json (DEFAULT_STATE LIST_CONFIG));
        THIS_WEEK_FILE := None |}).
Proof. vm_compute. reflexivity. Qed.

(** The first weekly job on a fresh data directory: the default state is
    created, rotated and saved, the text is kept as this week's snapshot and
    pushed. *)
Example weekly_job_first_run :
  weekly_job LIST_CONFIG {| year := 2025; month := 3; day := 3 |}
    {| csv_files := full_files; STATE_FILE := None; THIS_WEEK_FILE := None |}
  = (Ok [Push (special_text ["Q"] ["X"; "X"])],
     {| csv_files := full_files;
        STATE_FILE := Some (Json
          {| indexes :=
               <["hymn" := 2]> (<["bread_bro" := 2]> (<["sharing" := 1]>
                 (<["baking" := 1]> (<["url" := 1]>
                    (indexes (DEFAULT_STATE LIST_CONFIG))))));
             override := PyNone |});
        THIS_WEEK_FILE :=
          Some (Json {[ "text" := special_text ["Q"] ["X"; "X"] ]}) |}).
Proof. vm_compute. reflexivity. Qed.

(** After it, a resend request pushes the snapshot again without rotating. *)
Example resend_after_weekly_job :
  let d1 := snd (weekly_job LIST_CONFIG {| year := 2025; month := 3; day := 3 |}
                   {| csv_files := full_files; STATE_FILE := None;
                      THIS_WEEK_FILE := None |}) in
  handle_message LIST_CONFIG "!resend" {| year := 2025; month := 3; day := 5 |} d1
  = (Ok [Push (special_text ["Q"] ["X"; "X"]); Reply "Resent."], d1).
Proof. vm_compute. reflexivity. Qed.

(** ** More on the rotator *)

Lemma cyclic_window_length {A} (lst : list A) (c : Z) (n : nat) :
  lst ≠ [] → length (cyclic_window lst c n) = n.
Proof.
  intros Hne. unfold cyclic_window. generalize 0%nat.
  induction n as [|n IH]; intros s; [done|].
  cbn. destruct (cyclic_is_Some lst (c + Z.of_nat s) Hne) as [x ->].
  cbn. by rewrite IH.
Qed.

Lemma cyclic_window_lookup {A} (lst : list A) (c : Z) (n i : nat) :
  lst ≠ [] → (i < n)%nat →
  cyclic_window lst c n !! i = cyclic lst (c + Z.of_nat i).
Proof.
  intros Hne. unfold cyclic_window.
  assert (∀ s, (i < n)%nat →
    omap (λ j : nat, cyclic lst (c + Z.of_nat j)) (seq s n) !! i
    = cyclic lst (c + Z.of_nat (s + i))) as H.
  { revert i. induction n as [|n IH]; intros i s Hi; [lia|].
    cbn. destruct (cyclic_is_Some lst (c + Z.of_nat s) Hne) as [x Hx].
    rewrite Hx. cbn. destruct i as [|i].
    - by rewrite Nat.add_0_r.
    - cbn. rewrite IH by lia. do 2 f_equal. lia. }
  intros Hi. by rewrite H.
Qed.

Lemma next_items_window {A} (lst : list A) (start_idx : Z) (n : nat) :
  lst ≠ [] → next_items lst start_idx n = Ok (cyclic_window lst start_idx n).
Proof.
  intros Hne.
  destruct (next_items_cyclic lst start_idx n Hne) as (picked & -> & Hlen & Hnth).
  f_equal. apply list_eq. intros i.
  destruct (decide (i < n)%nat) as [Hi|Hi].
  - by rewrite Hnth, cyclic_window_lookup.
  - rewrite (lookup_ge_None_2 picked) by lia.
    rewrite lookup_ge_None_2; [done|]. rewrite cyclic_window_length; [lia|done].
Qed.

Lemma cyclic_shift {A} (lst : list A) (c : Z) (i : nat) :
  lst ≠ [] →
  cyclic lst (c + Z.of_nat i)
  = cyclic lst (c `mod` Z.of_nat (length lst) + Z.of_nat i).
Proof.
  intros Hne. unfold cyclic. do 2 f_equal.
  by rewrite Zplus_mod_idemp_l.
Qed.

Lemma omap_seq_shift {A} (f g : nat → option A) (a b : nat) :
  (∀ i, f (a + i)%nat = g i) →
  ∀ s, omap f (seq (a + s) b) = omap g (seq s b).
Proof.
  intros Hfg. induction b as [|b IH]; intros s; [done|].
  cbn. rewrite Hfg. destruct (g s); cbn.
  - f_equal. rewrite <- IH. f_equal. f_equal. lia.
  - rewrite <- IH. f_equal. f_equal. lia.
Qed.

Lemma cyclic_window_app {A} (lst : list A) (c : Z) (a b : nat) :
  cyclic_window lst c (a + b)
  = (cyclic_window lst c a ++ cyclic_window lst (c + Z.of_nat a) b)%list.
Proof.
  unfold cyclic_window. rewrite seq_app, omap_app. f_equal.
  replace (0 + a)%nat with (a + 0)%nat by lia.
  apply omap_seq_shift. intros i. f_equal. lia.
Qed.

Lemma cyclic_window_mod {A} (lst : list A) (c : Z) (n : nat) :
  lst ≠ [] →
  cyclic_window lst (c `mod` Z.of_nat (length lst)) n = cyclic_window lst c n.
Proof.
  intros Hne. unfold cyclic_window.
  apply (omap_seq_shift _ _ 0%nat). intros i. simpl.
  symmetry. by apply cyclic_shift.
Qed.

Lemma cyclic_window_whole {A} (lst : list A) (c : Z) :
  lst ≠ [] →
  cyclic_window lst c (length lst)
  = rotate (Z.to_nat (c `mod` Z.of_nat (length lst))) lst.
Proof.
  intros Hne.
  assert (0 < length lst)%nat as HL by (destruct lst; [done | simpl; lia]).
  pose proof (Z.mod_pos_bound c (Z.of_nat (length lst)) ltac:(lia)) as Hm.
  apply list_eq. intros i.
  destruct (decide (i < length lst)%nat) as [Hi|Hi].
  - rewrite cyclic_window_lookup, lookup_rotate_r by done.
    rewrite cyclic_shift by done. unfold cyclic, rotate_nat_add.
    do 3 f_equal. lia.
  - rewrite (lookup_ge_None_2 (rotate _ _)) by (rewrite length_rotate; lia).
    rewrite lookup_ge_None_2; [done|]. rewrite cyclic_window_length; [lia|done].
Qed.

Lemma rotate_Permutation {A} (n : nat) (lst : list A) : rotate n lst ≡ₚ lst.
Proof. unfold rotate. rewrite Permutation_app_comm. by rewrite take_drop. Qed.

(** X1. Asking for exactly as many names as the roster has returns the
    roster rotated to start at the cursor: every entry once, in roster
    order. *)
Theorem next_items_whole_roster {A} (lst : list A) (start_idx : Z) :
  lst ≠ [] →
  next_items lst start_idx (length lst)
  = Ok (rotate (Z.to_nat (start_idx `mod` Z.of_nat (length lst))) lst)
  ∧ rotate (Z.to_nat (start_idx `mod` Z.of_nat (length lst))) lst ≡ₚ lst.
Proof.
  intros Hne. split; [|apply rotate_Permutation].
  by rewrite next_items_window, cyclic_window_whole.
Qed.

Lemma next_items_whole_roster_witness :
  next_items ["a"; "b"; "c"] 5 (length ["a"; "b"; "c"])
  = Ok (rotate (Z.to_nat (5 `mod` Z.of_nat (length ["a"; "b"; "c"])))
          ["a"; "b"; "c"])
  ∧ rotate (Z.to_nat (5 `mod` Z.of_nat (length ["a"; "b"; "c"])))
      ["a"; "b"; "c"] ≡ₚ ["a"; "b"; "c"].
Proof. apply (next_items_whole_roster ["a"; "b"; "c"] 5). discriminate. Defined.

Lemma cyclic_window_rounds {A} (lst : list A) (c : Z) (n : nat) :
  lst ≠ [] →
  cyclic_window lst c (length lst * n) ≡ₚ mjoin (replicate n lst).
Proof.
  intros Hne. induction n as [|n IH].
  - by rewrite Nat.mul_0_r.
  - replace (length lst * S n)%nat with (length lst + length lst * n)%nat by lia.
    rewrite cyclic_window_app, cyclic_window_whole by done.
    rewrite <- (cyclic_window_mod lst (c + _)) by done.
    replace (c + Z.of_nat (length lst)) with (c + 1 * Z.of_nat (length lst))
      by lia.
    rewrite Z_mod_plus_full, cyclic_window_mod by done.
    cbn. by rewrite rotate_Permutation, IH.
Qed.

Section RotatorMore.
Variable config : gmap string role.
Variable files : gmap string roster_file.

(** X2. The rotator fails in three ways only, and the state is then left as
    it was: with KeyError when the role is not configured or its non-empty
    roster has no cursor in the state, with OSError when the roster file
    exists but cannot be read, with UnicodeDecodeError when its bytes are not
    UTF-8. It never divides by zero and never indexes out of range. *)
Theorem get_list_with_advance_failure (key : string) (advance : bool)
    (state : State) :
  match get_list_with_advance config files key advance state with
  | (Ok _, _) =>
      ∃ names, load_csv_list config files key = Ok names
        ∧ (names = [] ∨ is_Some (indexes state !! key))
  | (Raise e, state') =>
      state' = state
      ∧ ((e = KeyError
          ∧ (config !! key = None
             ∨ ∃ names, load_csv_list config files key = Ok names ∧ names ≠ []
                 ∧ indexes state !! key = None))
         ∨ (∃ r, config !! key = Some r
              ∧ ((files !! file r = Some NoAccess ∧ e = OSError)
                 ∨ (∃ b, files !! file r = Some (Bytes b)
                      ∧ utf8_valid b = false ∧ e = UnicodeDecodeError))))
  end.
Proof.
  unfold get_list_with_advance, mbind, M_bind, lift, get, put, mret, M_ret.
  destruct (load_csv_list config files key) as [names|e] eqn:Hload.
  - assert (∃ r, config !! key = Some r) as [r Hr].
    { unfold load_csv_list, dict_get in Hload.
      destruct (config !! key); [eauto|done]. }
    destruct names as [|a names'] eqn:E; [eauto|]. rewrite <- E in *.
    assert (names ≠ []) as Hne by (rewrite E; done).
    unfold dict_get. rewrite Hr.
    destruct (indexes state !! key) as [c|] eqn:Hc.
    + rewrite next_items_window by done.
      unfold advance_index, py_mod.
      destruct (Z.eqb_spec (Z.of_nat (length names)) 0) as [H0|_].
      { rewrite E in H0. simpl in H0. lia. }
      destruct advance; eauto.
    + split; [done|]. left. split; [done|]. right. eauto.
  - split; [done|]. unfold load_csv_list, dict_get in Hload.
    destruct (config !! key) as [r|] eqn:Hr; cbn in Hload.
    + right. exists r. split; [done|].
      destruct (files !! file r) as [[b|]|] eqn:Hf; [| |done].
      * unfold read_text in Hload. destruct (utf8_valid b) eqn:Hv; [done|].
        cbn in Hload. injection Hload as <-. right. eauto.
      * injection Hload as <-. left. eauto.
    + injection Hload as <-. left. eauto.
Qed.

(** X3. After an advancing call on a non-empty roster the stored cursor is a
    valid index of the roster, whatever integer the cursor was before. *)
Theorem get_list_with_advance_cursor_in_range (key : string) (r : role)
    (names : list pyval) (state : State) :
  config !! key = Some r →
  load_csv_list config files key = Ok names →
  names ≠ [] →
  is_Some (indexes state !! key) →
  ∃ c', indexes (snd (get_list_with_advance config files key true state)) !! key
        = Some c'
    ∧ 0 ≤ c' < Z.of_nat (length names).
Proof.
  intros Hcfg Hload Hne [c Hc].
  destruct (get_list_with_advance_step config files key r names true state
              Hcfg Hload) as (picked & st1 & -> & _ & _ & _ & _ & _ & Hadv);
    [eauto|].
  eexists. split; [by apply Hadv|].
  apply Z.mod_pos_bound. destruct names; [done | simpl; lia].
Qed.

(** X4. A call with [advance] off returns exactly what the call with
    [advance] on returns, and leaves the state as it was: previewing does not
    consume the rotation. *)
Theorem get_list_with_advance_preview (key : string) (state : State) :
  fst (get_list_with_advance config files key false state)
  = fst (get_list_with_advance config files key true state)
  ∧ snd (get_list_with_advance config files key false state) = state.
Proof.
  unfold get_list_with_advance, mbind, M_bind, lift, get, put, mret, M_ret.
  destruct (load_csv_list config files key) as [names|e] eqn:Hload; [|done].
  destruct names as [|a names'] eqn:E; [done|]. rewrite <- E.
  destruct (dict_get (indexes state) key); [|done].
  destruct (dict_get config key); [|done].
  destruct (next_items names _ _); [|done].
  unfold advance_index, py_mod.
  destruct (Z.eqb_spec (Z.of_nat (length names)) 0) as [H0|_]; [|done].
  rewrite E in H0. simpl in H0. lia.
Qed.

Lemma select_times_window (key : string) (r : role) (names : list pyval)
    (k : nat) :
  config !! key = Some r →
  load_csv_list config files key = Ok names →
  names ≠ [] →
  ∀ (state : State) (cursor : Z),
    indexes state !! key = Some cursor →
    ∃ state',
      select_times config files key k state
        = (Ok (cyclic_window names cursor (k * count r)), state')
      ∧ indexes state' !! key
        = Some (match k with
                | O => cursor
                | _ => (cursor + Z.of_nat (k * count r))
                         `mod` Z.of_nat (length names)
                end).
Proof.
  intros Hcfg Hload Hne. induction k as [|k IH]; intros state cursor Hidx.
  { by exists state. }
  assert (get_list_with_advance config files key true state
          = (Ok (cyclic_window names cursor (count r)),
             set_index key ((cursor + Z.of_nat (count r))
                              `mod` Z.of_nat (length names)) state)) as Hrun.
  { unfold get_list_with_advance, mbind, M_bind, lift, get, put, mret, M_ret.
    rewrite Hload. destruct names as [|a names'] eqn:E; [done|]. rewrite <- E.
    unfold dict_get. rewrite Hidx, Hcfg, next_items_window by (by rewrite E).
    unfold advance_index, py_mod.
    destruct (Z.eqb_spec (Z.of_nat (length names)) 0) as [H0|_]; [|done].
    rewrite E in H0. simpl in H0. lia. }
  destruct (IH (set_index key ((cursor + Z.of_nat (count r))
                                 `mod` Z.of_nat (length names)) state)
               ((cursor + Z.of_nat (count r)) `mod` Z.of_nat (length names)))
    as (state' & Hk & Hc').
  { simpl. apply lookup_insert_eq. }
  exists state'. split.
  - cbn [select_times]. unfold mbind, M_bind at 1. rewrite Hrun.
    unfold mbind, M_bind at 1. rewrite Hk. unfold mret, M_ret. do 2 f_equal.
    rewrite cyclic_window_mod by done.
    replace (S k * count r)%nat with (count r + k * count r)%nat by lia.
    by rewrite cyclic_window_app.
  - rewrite Hc'. f_equal. destruct k as [|k'].
    + f_equal. lia.
    + rewrite Zplus_mod_idemp_l. f_equal. lia.
Qed.

(** X5. Successive advancing calls continue one another: [k] calls in a row
    return, put end to end, the [k * count] names that follow the starting
    cursor cyclically, so that between two calls no name is skipped and none
    is served twice. *)
Theorem select_times_contiguous (key : string) (r : role) (names : list pyval)
    (k : nat) (state : State) (cursor : Z) :
  config !! key = Some r →
  load_csv_list config files key = Ok names →
  names ≠ [] →
  indexes state !! key = Some cursor →
  fst (select_times config files key k state)
  = Ok (cyclic_window names cursor (k * count r))
  ∧ ∀ i, (i < k * count r)%nat →
      cyclic_window names cursor (k * count r) !! i
      = names !! Z.to_nat ((cursor + Z.of_nat i) `mod` Z.of_nat (length names)).
Proof.
  intros Hcfg Hload Hne Hidx.
  destruct (select_times_window key r names k Hcfg Hload Hne state cursor Hidx)
    as (state' & -> & _).
  split; [done|]. intros i Hi. by rewrite cyclic_window_lookup.
Qed.

(** X6. Over as many advancing calls as the roster has names, every name is
    served exactly [count] times (the names returned are a rearrangement of
    [count] copies of the roster) and the cursor is back where it started,
    modulo the roster length. *)
Theorem select_times_full_round (key : string) (r : role) (names : list pyval)
    (state : State) (cursor : Z) :
  config !! key = Some r →
  load_csv_list config files key = Ok names →
  names ≠ [] →
  indexes state !! key = Some cursor →
  ∃ picked state',
    select_times config files key (length names) state = (Ok picked, state')
    ∧ picked ≡ₚ mjoin (replicate (count r) names)
    ∧ indexes state' !! key = Some (cursor `mod` Z.of_nat (length names)).
Proof.
  intros Hcfg Hload Hne Hidx.
  assert (0 < length names)%nat as HL by (destruct names; [done | simpl; lia]).
  destruct (select_times_window key r names (length names) Hcfg Hload Hne
              state cursor Hidx) as (state' & Hrun & Hc').
  eexists _, state'. split; [exact Hrun|]. split.
  - by apply cyclic_window_rounds.
  - rewrite Hc'. destruct (length names) as [|L'] eqn:EL; [lia|].
    rewrite <- EL. f_equal.
    replace (Z.of_nat (length names * count r))
      with (Z.of_nat (count r) * Z.of_nat (length names)) by lia.
    apply Z_mod_plus_full.
Qed.
End RotatorMore.

Lemma get_list_with_advance_cursor_in_range_witness :
  ∃ c', indexes (snd (get_list_with_advance LIST_CONFIG sample_files "hymn" true
                        {| indexes := {[ "hymn" := -7 ]}; override := PyNone |}))
          !! "hymn" = Some c'
    ∧ 0 ≤ c' < Z.of_nat (length [PyStr "A"; PyStr "B"; PyStr "C"]).
Proof.
  apply (get_list_with_advance_cursor_in_range LIST_CONFIG sample_files "hymn"
           {| file := "hymn.csv"; count := 2 |}
           [PyStr "A"; PyStr "B"; PyStr "C"]
           {| indexes := {[ "hymn" := -7 ]}; override := PyNone |});
    [reflexivity | reflexivity | discriminate | vm_compute; eauto].
Defined.

Lemma select_times_contiguous_witness :
  fst (select_times LIST_CONFIG sample_files "hymn" 2
         (DEFAULT_STATE LIST_CONFIG))
  = Ok (cyclic_window [PyStr "A"; PyStr "B"; PyStr "C"] 0 (2 * 2))
  ∧ ∀ i, (i < 2 * 2)%nat →
      cyclic_window [PyStr "A"; PyStr "B"; PyStr "C"] 0 (2 * 2) !! i
      = [PyStr "A"; PyStr "B"; PyStr "C"]
          !! Z.to_nat ((0 + Z.of_nat i) `mod` Z.of_nat 3).
Proof.
  apply (select_times_contiguous LIST_CONFIG sample_files "hymn"
           {| file := "hymn.csv"; count := 2 |}
           [PyStr "A"; PyStr "B"; PyStr "C"] 2 (DEFAULT_STATE LIST_CONFIG) 0);
    [reflexivity | reflexivity | discriminate | reflexivity].
Defined.

Lemma select_times_full_round_witness :
  ∃ picked state',
    select_times LIST_CONFIG sample_files "hymn" 3 (DEFAULT_STATE LIST_CONFIG)
    = (Ok picked, state')
    ∧ picked ≡ₚ mjoin (replicate 2 [PyStr "A"; PyStr "B"; PyStr "C"])
    ∧ indexes state' !! "hymn" = Some (0 `mod` 3).
Proof.
  apply (select_times_full_round LIST_CONFIG sample_files "hymn"
           {| file := "hymn.csv"; count := 2 |}
           [PyStr "A"; PyStr "B"; PyStr "C"] (DEFAULT_STATE LIST_CONFIG) 0);
    [reflexivity | reflexivity | discriminate | reflexivity].
Defined.

(** Three weeks of hymn leaders from a roster of three: A B, C A, B C. *)
Example select_times_three_weeks :
  fst (select_times LIST_CONFIG sample_files "hymn" 3 (DEFAULT_STATE LIST_CONFIG))
  = Ok [PyStr "A"; PyStr "B"; PyStr "C"; PyStr "A"; PyStr "B"; PyStr "C"].
Proof. vm_compute. reflexivity. Qed.
(** ** More on the substitution *)

Lemma index_Ok_inv {A} `{EqDecision A} (l : list A) (x : A) (z : Z) :
  index l x = Ok z → ∃ pos : nat, z = Z.of_nat pos ∧ l !! pos = Some x.
Proof.
  revert z. induction l as [|y l IH]; intros z; [done|].
  simpl. destruct (decide (y = x)) as [->|Hne].
  - intros [= <-]. by exists 0%nat.
  - destruct (index l x) as [i|] eqn:Hi; [|done]. cbn. intros [= <-].
    destruct (IH i eq_refl) as (pos & -> & Hpos). exists (S pos).
    split; [lia|done].
Qed.

Lemma index_Raise_inv {A} `{EqDecision A} (l : list A) (x : A) (e : exn) :
  index l x = Raise e → e = ValueError ∧ x ∉ l.
Proof.
  revert e. induction l as [|y l IH]; intros e.
  - intros [= <-]. split; [done|]. apply not_elem_of_nil.
  - simpl. destruct (decide (y = x)) as [->|Hne]; [done|].
    destruct (index l x) as [i|e'] eqn:Hi; [done|]. cbn. intros [= <-].
    destruct (IH e' eq_refl) as [-> Hnot]. split; [done|].
    apply not_elem_of_cons. by split.
Qed.

Lemma getitem_head {A} (l : list A) : getitem l 0 =
  match head l with Some x => Ok x | None => Raise IndexError end.
Proof. by destruct l. Qed.

Lemma bump_one_nonempty (name_list names_pool : list pyval)
    (avoid_set : gset pyval) :
  names_pool ≠ [] →
  bump_one name_list names_pool avoid_set
  = (first ← getitem name_list 0;
     cur ← index names_pool first;
     bump_scan name_list names_pool avoid_set cur
       (seq 1 (length names_pool - 1))).
Proof. by destruct names_pool. Qed.

(** What a successful [bump_one] on a non-empty pool returns. *)
Lemma bump_one_outcome (name_list names_pool : list pyval)
    (avoid_set : gset pyval) (b : pyval) :
  names_pool ≠ [] →
  bump_one name_list names_pool avoid_set = Ok b →
  ∃ name, head name_list = Some name ∧ name ∈ names_pool
    ∧ ((b ∈ names_pool ∧ (b ∉ avoid_set) ∧ (b ∉ name_list))
       ∨ (b = name ∧ ∀ c, c ∈ names_pool → c ∈ avoid_set ∨ c ∈ name_list)).
Proof.
  intros Hne Hrun.
  assert (∃ name, head name_list = Some name) as [name Hhead].
  { unfold bump_one in Hrun. destruct names_pool; [done|].
    rewrite getitem_head in Hrun. destruct (head name_list); [eauto|done]. }
  assert (∃ pos : nat, index names_pool name = Ok (Z.of_nat pos)
                       ∧ names_pool !! pos = Some name) as (pos & Hidx & Hpos).
  { unfold bump_one in Hrun. destruct names_pool as [|p0 pool'] eqn:E; [done|].
    rewrite <- E in *. rewrite getitem_head, Hhead in Hrun. cbn in Hrun.
    destruct (index names_pool name) as [z|] eqn:Hz; [|done].
    destruct (index_Ok_inv _ _ _ Hz) as (pos & -> & Hpos). eauto. }
  assert (pos < length names_pool)%nat as Hlt by (by eapply lookup_lt_Some).
  rewrite (bump_one_at name_list names_pool avoid_set name pos Hhead Hidx Hlt)
    in Hrun.
  injection Hrun as <-.
  exists name. split; [done|]. split; [by eapply list_elem_of_lookup_2|].
  unfold bump_one_spec. cbv zeta.
  destruct (head (filter _ _)) as [c|] eqn:Hc; simpl.
  - left. apply head_Some_elem_of in Hc.
    apply list_elem_of_filter in Hc as [[H1 H2] Hc].
    split; [|done].
    apply elem_of_app in Hc as [Hc|Hc].
    + rewrite <- (take_drop (S pos) names_pool). apply elem_of_app. by right.
    + rewrite <- (take_drop pos names_pool). apply elem_of_app. by left.
  - right. split; [done|]. intros c Hin. apply head_None in Hc.
    destruct (decide (c ∈ avoid_set)) as [|Hna]; [by left|]. right.
    destruct (decide (c ∈ name_list)) as [|Hnl]; [done|]. exfalso.
    rewrite <- (take_drop_middle names_pool pos name Hpos) in Hin.
    apply elem_of_app in Hin as [Hin|Hin].
    + apply (not_elem_of_nil c). rewrite <- Hc.
      apply list_elem_of_filter. split; [done|]. apply elem_of_app. by right.
    + apply elem_of_cons in Hin as [->|Hin].
      * apply Hnl. destruct name_list; simplify_eq/=. by left.
      * apply (not_elem_of_nil c). rewrite <- Hc.
        apply list_elem_of_filter. split; [done|]. apply elem_of_app. by left.
Qed.

(** X7. What [bump_one] hands back from a non-empty pool is either a pool
    member that is neither avoided nor already selected, or the conflicting
    name itself; and it falls back to the conflicting name only when every
    pool member is avoided or already selected. *)
Theorem bump_one_substitute (name_list names_pool : list pyval)
    (avoid_set : gset pyval) (b : pyval) :
  names_pool ≠ [] →
  bump_one name_list names_pool avoid_set = Ok b →
  (b ∈ names_pool ∧ (b ∉ avoid_set) ∧ (b ∉ name_list))
  ∨ (head name_list = Some b
     ∧ ∀ c, c ∈ names_pool → c ∈ avoid_set ∨ c ∈ name_list).
Proof.
  intros Hne Hrun.
  destruct (bump_one_outcome _ _ _ _ Hne Hrun) as (name & Hhead & _ & [H|[-> H]]);
    [by left | by right].
Qed.

Lemma bump_one_substitute_witness :
  (PyStr "D" ∈ [PyStr "B"; PyStr "A"; PyStr "D"; PyStr "E"]
   ∧ (PyStr "D" ∉ (list_to_set [PyStr "A"; PyStr "B"] : gset pyval))
   ∧ (PyStr "D" ∉ [PyStr "B"]))
  ∨ (head [PyStr "B"] = Some (PyStr "D")
     ∧ ∀ c, c ∈ [PyStr "B"; PyStr "A"; PyStr "D"; PyStr "E"] →
         c ∈ (list_to_set [PyStr "A"; PyStr "B"] : gset pyval)
         ∨ c ∈ [PyStr "B"]).
Proof.
  apply (bump_one_substitute [PyStr "B"]
           [PyStr "B"; PyStr "A"; PyStr "D"; PyStr "E"]
           (list_to_set [PyStr "A"; PyStr "B"]) (PyStr "D"));
    [discriminate | vm_compute; reflexivity].
Defined.

(** X8. [bump_one] returns [None] exactly for an empty pool; on a non-empty
    pool it fails only with IndexError, when the selection is empty, or with
    ValueError, when the conflicting name is not in the pool. *)
Theorem bump_one_failure (name_list names_pool : list pyval)
    (avoid_set : gset pyval) :
  match bump_one name_list names_pool avoid_set with
  | Ok b =>
      (names_pool = [] ∧ b = PyNone)
      ∨ (∃ name, head name_list = Some name ∧ name ∈ names_pool)
  | Raise e =>
      names_pool ≠ []
      ∧ ((e = IndexError ∧ name_list = [])
         ∨ (e = ValueError ∧ ∃ name, head name_list = Some name
                                      ∧ name ∉ names_pool))
  end.
Proof.
  destruct (bump_one name_list names_pool avoid_set) as [b|e] eqn:Hrun.
  - destruct names_pool as [|p0 pool'] eqn:E.
    + left. split; [done|]. by injection Hrun as <-.
    + right. rewrite <- E in *.
      destruct (bump_one_outcome name_list names_pool avoid_set b) as
        (name & Hhead & Hin & _); [by rewrite E|done|eauto].
  - destruct names_pool as [|p0 pool'] eqn:E; [done|].
    rewrite <- E in *. split; [by rewrite E|].
    destruct name_list as [|name rest].
    { left. rewrite E in Hrun. by injection Hrun as <-. }
    right. destruct (index names_pool name) as [z|e'] eqn:Hz.
    + destruct (index_Ok_inv _ _ _ Hz) as (pos & -> & Hpos).
      rewrite (bump_one_at (name :: rest) names_pool avoid_set name pos)
        in Hrun; [done|done|done|by eapply lookup_lt_Some].
    + destruct (index_Raise_inv _ _ _ Hz) as [-> Hnot].
      rewrite bump_one_nonempty in Hrun by (by rewrite E).
      rewrite getitem_head in Hrun. cbn in Hrun. rewrite Hz in Hrun.
      injection Hrun as <-. eauto.
Qed.

(** ** More on the resolver *)

Lemma bump_bread_bro_inv (hymn pool_bro : list pyval) (n : nat) :
  ∀ (s : nat) (bread_bro bread_bro' : list pyval),
    bump_bread_bro hymn pool_bro (seq s n) bread_bro = Ok bread_bro' →
    length bread_bro' = length bread_bro
    ∧ (∀ i, (i < s)%nat → bread_bro' !! i = bread_bro !! i)
    ∧ (∀ i x, bread_bro !! i = Some x → x ∉ hymn → bread_bro' !! i = Some x)
    ∧ (∀ i y, (s ≤ i < s + n)%nat → bread_bro' !! i = Some y → y ∈ hymn →
         ∀ c, c ∈ pool_bro → c ∈ hymn ∨ c ∈ bread_bro ∨ c ∈ bread_bro').
Proof.
  induction n as [|n IH]; intros s bread_bro bread_bro' Hrun.
  { injection Hrun as <-. repeat split; try done. intros; lia. }
  cbn [seq bump_bread_bro] in Hrun.
  destruct (getitem bread_bro (Z.of_nat s)) as [person|] eqn:Hget; [|done].
  cbn [mbind result_bind] in Hrun.
  assert (bread_bro !! s = Some person) as Hperson.
  { unfold getitem in Hget. destruct (Z.ltb_spec (Z.of_nat s) 0); [lia|].
    destruct (_ && _); [|done]. rewrite Nat2Z.id in Hget.
    by destruct (bread_bro !! s); simplify_eq. }
  destruct (bool_decide (person ∈ hymn)) eqn:Hconf.
  - apply bool_decide_eq_true in Hconf.
    destruct (bump_one [person] pool_bro (list_to_set (hymn ++ bread_bro)))
      as [b|] eqn:Hb; [|done].
    cbn [mbind result_bind] in Hrun.
    destruct (IH _ _ _ Hrun) as (Hlen & Hbefore & Hkeep & Hrule).
    rewrite length_insert in Hlen.
    assert (bread_bro' !! s = Some b) as Hs.
    { rewrite Hbefore by lia. apply list_lookup_insert_eq.
      by eapply lookup_lt_Some. }
    split; [done|]. split; [|split].
    + intros i Hi. rewrite Hbefore by lia.
      apply list_lookup_insert_ne. lia.
    + intros i x Hx Hnot. apply Hkeep; [|done].
      rewrite list_lookup_insert_ne; [done|]. intros ->.
      apply Hnot. congruence.
    + intros i y Hi Hy Hyh c Hc.
      destruct (decide (i = s)) as [->|Hne].
      * assert (y = b) as -> by congruence.
        destruct pool_bro as [|p0 pool'] eqn:E; [by apply elem_of_nil in Hc|].
        rewrite <- E in *.
        destruct (bump_one_outcome [person] pool_bro
                    (list_to_set (hymn ++ bread_bro)) b) as
          (name & _ & _ & [(_ & Hnot & _)|[_ Hall]]); [by rewrite E|done|..].
        { exfalso. apply Hnot. apply elem_of_list_to_set, elem_of_app. by left. }
        destruct (Hall c Hc) as [Hav|Hsel].
        -- apply elem_of_list_to_set, elem_of_app in Hav as [?|?]; eauto.
        -- apply list_elem_of_singleton in Hsel as ->. eauto.
      * destruct (Hrule i y ltac:(lia) Hy Hyh c Hc) as [?|[Hin|?]]; eauto.
        apply list_elem_of_lookup in Hin as [j Hj].
        destruct (decide (j = s)) as [->|Hjs].
        -- rewrite list_lookup_insert_eq in Hj by (by eapply lookup_lt_Some).
           injection Hj as <-. right. right. by eapply list_elem_of_lookup_2.
        -- rewrite list_lookup_insert_ne in Hj by done.
           right. left. by eapply list_elem_of_lookup_2.
  - apply bool_decide_eq_false in Hconf.
    destruct (IH _ _ _ Hrun) as (Hlen & Hbefore & Hkeep & Hrule).
    split; [done|]. split; [|split].
    + intros i Hi. apply Hbefore. lia.
    + done.
    + intros i y Hi Hy Hyh c Hc.
      destruct (decide (i = s)) as [->|Hne].
      * rewrite Hbefore in Hy by lia. congruence.
      * apply (Hrule i y); [lia|done..].
Qed.

Lemma sharing_stage_inv (pool_sharing sharing topic sharing' : list pyval) :
  match sharing, topic with
  | s0 :: sharing_rest, t0 :: _ =>
      if decide (s0 = t0)
      then b ← bump_one sharing pool_sharing (list_to_set topic);
           Ok (b :: sharing_rest)
      else Ok sharing
  | _, _ => Ok sharing
  end = Ok sharing' →
  length sharing' = length sharing
  ∧ tail sharing' = tail sharing
  ∧ (∀ t0, head sharing' = Some t0 → head topic = Some t0 →
       ∀ c, c ∈ pool_sharing → c ∈ topic ∨ c ∈ sharing).
Proof.
  destruct sharing as [|s0 rest]; [by intros [= <-]|].
  destruct topic as [|t0 topic']; [by intros [= <-]|].
  destruct (decide (s0 = t0)) as [->|Hne].
  - destruct (bump_one _ _ _) as [b|] eqn:Hb; [|done]. cbn. intros [= <-].
    split; [done|]. split; [done|].
    intros t0' [= ->] [= ->] c Hc.
    destruct pool_sharing as [|p0 pool'] eqn:E; [by apply elem_of_nil in Hc|].
    rewrite <- E in *.
    destruct (bump_one_outcome _ pool_sharing _ _ ltac:(by rewrite E) Hb) as
      (name & _ & _ & [(_ & Hnot & _)|[_ Hall]]).
    { exfalso. apply Hnot. apply elem_of_list_to_set. by left. }
    destruct (Hall c Hc) as [Hav|Hsel]; [|by right].
    left. by apply elem_of_list_to_set in Hav.
  - intros [= <-]. split; [done|]. split; [done|].
    by intros t0' [= ->] [= ->].
Qed.

Lemma pianist_stage_inv (pool_pianist pianist pianist' : list pyval) :
  match pianist with
  | [p0; p1] =>
      if decide (p0 = p1)
      then b ← bump_one [p1] pool_pianist (list_to_set [p0]);
           Ok [p0; b]
      else Ok pianist
  | _ => Ok pianist
  end = Ok pianist' →
  length pianist' = length pianist
  ∧ head pianist' = head pianist
  ∧ (∀ a, pianist' = [a; a] → ∀ c, c ∈ pool_pianist → c = a).
Proof.
  destruct pianist as [|p0 [|p1 [|p2 rest]]]; try by intros [= <-].
  destruct (decide (p0 = p1)) as [->|Hne].
  - destruct (bump_one _ _ _) as [b|] eqn:Hb; [|done]. cbn. intros [= <-].
    split; [done|]. split; [done|].
    intros a [= -> ->] c Hc.
    destruct pool_pianist as [|q0 pool'] eqn:E; [by apply elem_of_nil in Hc|].
    rewrite <- E in *.
    destruct (bump_one_outcome _ pool_pianist _ _ ltac:(by rewrite E) Hb) as
      (name & _ & _ & [(_ & Hnot & _)|[_ Hall]]).
    { exfalso. apply Hnot. apply elem_of_list_to_set. by left. }
    destruct (Hall c Hc) as [Hav|Hsel].
    + apply elem_of_list_to_set in Hav.
      by apply list_elem_of_singleton in Hav.
    + by apply list_elem_of_singleton in Hsel.
  - intros [= <-]. split; [done|]. split; [done|]. by intros a [= -> ->].
Qed.

Lemma sharing_stage_frame (pool_sharing sharing topic sharing' : list pyval) :
  match sharing, topic with
  | s0 :: sharing_rest, t0 :: _ =>
      if decide (s0 = t0)
      then b ← bump_one sharing pool_sharing (list_to_set topic);
           Ok (b :: sharing_rest)
      else Ok sharing
  | _, _ => Ok sharing
  end = Ok sharing' →
  sharing' ≠ sharing → ∃ s0, head sharing = Some s0 ∧ head topic = Some s0.
Proof.
  destruct sharing as [|s0 rest]; [by intros [= <-]|].
  destruct topic as [|t0 topic']; [by intros [= <-]|].
  destruct (decide (s0 = t0)) as [->|Hne]; [eauto|by intros [= <-]].
Qed.

Lemma pianist_stage_frame (pool_pianist pianist pianist' : list pyval) :
  match pianist with
  | [p0; p1] =>
      if decide (p0 = p1)
      then b ← bump_one [p1] pool_pianist (list_to_set [p0]);
           Ok [p0; b]
      else Ok pianist
  | _ => Ok pianist
  end = Ok pianist' →
  (∀ i, i ≠ 1%nat → pianist' !! i = pianist !! i)
  ∧ (pianist' ≠ pianist → ∃ a, pianist = [a; a]).
Proof.
  destruct pianist as [|p0 [|p1 [|p2 rest]]]; try by intros [= <-].
  destruct (decide (p0 = p1)) as [->|Hne]; [|by intros [= <-]].
  destruct (bump_one _ _ _) as [b|]; [|done]. cbn. intros [= <-].
  split; [|eauto]. by intros [|[|i]] Hi.
Qed.

Section ResolverMore.
Variable config : gmap string role.
Variable files : gmap string roster_file.

(** A successful run of the resolver, stage by stage. *)
Lemma resolve_duplicates_inv
    (hymn bread_bro sharing topic pianist : list pyval) (state state' : State)
    (hymn' bread_bro' sharing' topic' pianist' : list pyval) :
  resolve_duplicates config files hymn bread_bro sharing topic pianist state
    = (Ok (hymn', bread_bro', sharing', topic', pianist'), state') →
  ∃ pool_bro pool_sharing pool_pianist,
    load_csv_list config files "bread_bro" = Ok pool_bro
    ∧ load_csv_list config files "sharing" = Ok pool_sharing
    ∧ load_csv_list config files "pianist" = Ok pool_pianist
    ∧ bump_bread_bro hymn pool_bro (seq 0 (length bread_bro)) bread_bro
      = Ok bread_bro'
    ∧ match sharing, topic with
      | s0 :: sharing_rest, t0 :: _ =>
          if decide (s0 = t0)
          then b ← bump_one sharing pool_sharing (list_to_set topic);
               Ok (b :: sharing_rest)
          else Ok sharing
      | _, _ => Ok sharing
      end = Ok sharing'
    ∧ match pianist with
      | [p0; p1] =>
          if decide (p0 = p1)
          then b ← bump_one [p1] pool_pianist (list_to_set [p0]);
               Ok [p0; b]
          else Ok pianist
      | _ => Ok pianist
      end = Ok pianist'
    ∧ hymn' = hymn ∧ topic' = topic ∧ state' = state.
Proof.
  unfold resolve_duplicates, mbind, M_bind, lift, mret, M_ret.
  destruct (load_csv_list config files "bread_bro") as [pool_bro|]; [|done].
  destruct (bump_bread_bro hymn pool_bro _ bread_bro) as [bb|] eqn:Hbb; [|done].
  destruct (load_csv_list config files "sharing") as [pool_sharing|]; [|done].
  destruct (match sharing with [] => _ | _ :: _ => _ end) as [sh|] eqn:Hsh;
    [|done].
  destruct (load_csv_list config files "pianist") as [pool_pianist|]; [|done].
  destruct (match pianist with [] => _ | _ :: _ => _ end) as [pi|] eqn:Hpi;
    [|done].
  intros [= <- <- <- <- <- <-].
  exists pool_bro, pool_sharing, pool_pianist. split_and!; done.
Qed.

(** X9. A successful resolver run changes nothing but conflicting entries:
    the hymn and topic selections come back as they were, every selection
    keeps its length, a bread-serving entry that is not a hymn leader stays
    in place; the sharing selection keeps every entry after the first, and
    differs at all only when its first name is the first topic name; the
    pianist selection keeps every entry but the one at index 1, and differs
    at all only when it was the same name twice. *)
Theorem resolve_duplicates_touches_only_conflicts
    (hymn bread_bro sharing topic pianist : list pyval) (state state' : State)
    (hymn' bread_bro' sharing' topic' pianist' : list pyval) :
  resolve_duplicates config files hymn bread_bro sharing topic pianist state
    = (Ok (hymn', bread_bro', sharing', topic', pianist'), state') →
  hymn' = hymn ∧ topic' = topic
  ∧ length bread_bro' = length bread_bro
  ∧ (∀ i x, bread_bro !! i = Some x → x ∉ hymn → bread_bro' !! i = Some x)
  ∧ length sharing' = length sharing ∧ tail sharing' = tail sharing
  ∧ (sharing' ≠ sharing →
     ∃ s0, head sharing = Some s0 ∧ head topic = Some s0)
  ∧ length pianist' = length pianist
  ∧ (∀ i, i ≠ 1%nat → pianist' !! i = pianist !! i)
  ∧ (pianist' ≠ pianist → ∃ a, pianist = [a; a]).
Proof.
  intros Hrun.
  destruct (resolve_duplicates_inv _ _ _ _ _ _ _ _ _ _ _ _ Hrun) as
    (pool_bro & pool_sharing & pool_pianist & _ & _ & _ & Hbb & Hsh & Hpi
     & -> & -> & _).
  destruct (bump_bread_bro_inv _ _ _ _ _ _ Hbb) as (Lbb & _ & Kbb & _).
  destruct (sharing_stage_inv _ _ _ _ Hsh) as (Lsh & Tsh & _).
  pose proof (sharing_stage_frame _ _ _ _ Hsh) as Fsh.
  destruct (pianist_stage_inv _ _ _ Hpi) as (Lpi & _ & _).
  destruct (pianist_stage_frame _ _ _ Hpi) as (Fpi & Cpi).
  split_and!; done.
Qed.

(** X10. Conflict rule 1. After a successful resolver run, a bread-serving
    entry can still be a hymn leader only if the bread-serving roster is
    exhausted: every roster member is then a hymn leader or is part of the
    bread-serving selection, before or after substitution. *)
Theorem resolve_duplicates_bread_bro_rule
    (hymn bread_bro sharing topic pianist : list pyval) (state state' : State)
    (hymn' bread_bro' sharing' topic' pianist' pool_bro : list pyval) :
  resolve_duplicates config files hymn bread_bro sharing topic pianist state
    = (Ok (hymn', bread_bro', sharing', topic', pianist'), state') →
  load_csv_list config files "bread_bro" = Ok pool_bro →
  ∀ y, y ∈ bread_bro' → y ∈ hymn →
    ∀ c, c ∈ pool_bro → c ∈ hymn ∨ c ∈ bread_bro ∨ c ∈ bread_bro'.
Proof.
  intros Hrun Hload y Hy Hyh c Hc.
  destruct (resolve_duplicates_inv _ _ _ _ _ _ _ _ _ _ _ _ Hrun) as
    (pool_bro0 & _ & _ & Hload0 & _ & _ & Hbb & _).
  assert (pool_bro0 = pool_bro) as -> by congruence.
  destruct (bump_bread_bro_inv _ _ _ _ _ _ Hbb) as (Lbb & _ & _ & Rbb).
  apply list_elem_of_lookup in Hy as [i Hi].
  apply (Rbb i y); [|done..].
  apply lookup_lt_Some in Hi. lia.
Qed.

(** X11. Conflict rule 2. After a successful resolver run the sharing name
    equals the topic name only if the sharing roster is exhausted: every
    roster member is then in the topic selection or in the sharing
    selection. *)
Theorem resolve_duplicates_sharing_rule
    (hymn bread_bro sharing topic pianist : list pyval) (state state' : State)
    (hymn' bread_bro' sharing' topic' pianist' pool_sharing : list pyval) :
  resolve_duplicates config files hymn bread_bro sharing topic pianist state
    = (Ok (hymn', bread_bro', sharing', topic', pianist'), state') →
  load_csv_list config files "sharing" = Ok pool_sharing →
  ∀ t0, head sharing' = Some t0 → head topic' = Some t0 →
    ∀ c, c ∈ pool_sharing → c ∈ topic ∨ c ∈ sharing.
Proof.
  intros Hrun Hload t0 Hs Ht c Hc.
  destruct (resolve_duplicates_inv _ _ _ _ _ _ _ _ _ _ _ _ Hrun) as
    (_ & pool0 & _ & _ & Hload0 & _ & _ & Hsh & _ & _ & -> & _).
  assert (pool0 = pool_sharing) as -> by congruence.
  destruct (sharing_stage_inv _ _ _ _ Hsh) as (_ & _ & Rsh).
  by apply (Rsh t0).
Qed.

(** X12. Conflict rule 3. After a successful resolver run the two pianist
    slots hold the same name only if the pianist roster offers nothing else:
    every roster member is that name. *)
Theorem resolve_duplicates_pianist_rule
    (hymn bread_bro sharing topic pianist : list pyval) (state state' : State)
    (hymn' bread_bro' sharing' topic' pianist' pool_pianist : list pyval) :
  resolve_duplicates config files hymn bread_bro sharing topic pianist state
    = (Ok (hymn', bread_bro', sharing', topic', pianist'), state') →
  load_csv_list config files "pianist" = Ok pool_pianist →
  ∀ a, pianist' = [a; a] → ∀ c, c ∈ pool_pianist → c = a.
Proof.
  intros Hrun Hload a Ha c Hc.
  destruct (resolve_duplicates_inv _ _ _ _ _ _ _ _ _ _ _ _ Hrun) as
    (_ & _ & pool0 & _ & _ & Hload0 & _ & _ & Hpi & _).
  assert (pool0 = pool_pianist) as -> by congruence.
  destruct (pianist_stage_inv _ _ _ Hpi) as (_ & _ & Rpi).
  by apply (Rpi a).
Qed.
End ResolverMore.

Lemma resolve_duplicates_touches_only_conflicts_witness :
  [PyStr "A"; PyStr "B"] = [PyStr "A"; PyStr "B"] ∧ [PyStr "P"] = [PyStr "P"]
  ∧ length [PyStr "D"; PyStr "E"] = length [PyStr "B"; PyStr "A"]
  ∧ (∀ i x, [PyStr "B"; PyStr "A"] !! i = Some x →
       x ∉ [PyStr "A"; PyStr "B"] → [PyStr "D"; PyStr "E"] !! i = Some x)
  ∧ length [PyStr "Q"] = length [PyStr "P"]
  ∧ tail [PyStr "Q"] = tail [PyStr "P"]
  ∧ ([PyStr "Q"] ≠ [PyStr "P"] →
     ∃ s0, head [PyStr "P"] = Some s0 ∧ head [PyStr "P"] = Some s0)
  ∧ length [PyStr "X"; PyStr "Y"] = length [PyStr "X"; PyStr "X"]
  ∧ (∀ i, i ≠ 1%nat →
       [PyStr "X"; PyStr "Y"] !! i = [PyStr "X"; PyStr "X"] !! i)
  ∧ ([PyStr "X"; PyStr "Y"] ≠ [PyStr "X"; PyStr "X"] →
     ∃ a, [PyStr "X"; PyStr "X"] = [a; a]).
Proof.
  apply (resolve_duplicates_touches_only_conflicts LIST_CONFIG
           (<["pianist.csv" := Bytes "X,Y"]> sample_files)
           [PyStr "A"; PyStr "B"] [PyStr "B"; PyStr "A"] [PyStr "P"]
           [PyStr "P"] [PyStr "X"; PyStr "X"]
           (DEFAULT_STATE LIST_CONFIG) (DEFAULT_STATE LIST_CONFIG)).
  vm_compute. reflexivity.
Defined.

Lemma resolve_duplicates_bread_bro_rule_witness :
  PyStr "B" ∈ [PyStr "A"; PyStr "B"] ∨ PyStr "B" ∈ [PyStr "A"; PyStr "A"]
  ∨ PyStr "B" ∈ [PyStr "A"; PyStr "A"].
Proof.
  apply (resolve_duplicates_bread_bro_rule LIST_CONFIG
           {[ "bread_bro.csv" := Bytes "A,B" ]}
           [PyStr "A"; PyStr "B"] [PyStr "A"; PyStr "A"] [] [] []
           (DEFAULT_STATE LIST_CONFIG) (DEFAULT_STATE LIST_CONFIG)
           [PyStr "A"; PyStr "B"] [PyStr "A"; PyStr "A"] [] [] []
           [PyStr "A"; PyStr "B"]) with (y := PyStr "A").
  - vm_compute. reflexivity.
  - vm_compute. reflexivity.
  - left.
  - left.
  - right. left.
Defined.

Lemma resolve_duplicates_sharing_rule_witness :
  PyStr "P" ∈ [PyStr "P"] ∨ PyStr "P" ∈ [PyStr "P"].
Proof.
  apply (resolve_duplicates_sharing_rule LIST_CONFIG
           {[ "sharing.csv" := Bytes "P" ]}
           [] [] [PyStr "P"] [PyStr "P"] []
           (DEFAULT_STATE LIST_CONFIG) (DEFAULT_STATE LIST_CONFIG)
           [] [] [PyStr "P"] [PyStr "P"] [] [PyStr "P"])
    with (t0 := PyStr "P").
  - vm_compute. reflexivity.
  - vm_compute. reflexivity.
  - reflexivity.
  - reflexivity.
  - left.
Defined.

Lemma resolve_duplicates_pianist_rule_witness :
  PyStr "X" = PyStr "X".
Proof.
  apply (resolve_duplicates_pianist_rule LIST_CONFIG sample_files
           [] [] [] [] [PyStr "X"; PyStr "X"]
           (DEFAULT_STATE LIST_CONFIG) (DEFAULT_STATE LIST_CONFIG)
           [] [] [] [] [PyStr "X"; PyStr "X"] [PyStr "X"]).
  - vm_compute. reflexivity.
  - vm_compute. reflexivity.
  - reflexivity.
  - left.
Defined.

(** The rule at work: with a spare name in the roster no hymn leader serves
    the bread. *)
Example resolve_duplicates_example :
  fst (resolve_duplicates LIST_CONFIG sample_files
         [PyStr "A"; PyStr "B"] [PyStr "B"; PyStr "A"] [PyStr "P"] [PyStr "P"]
         [PyStr "X"; PyStr "X"] (DEFAULT_STATE LIST_CONFIG))
  = Ok ([PyStr "A"; PyStr "B"], [PyStr "D"; PyStr "E"], [PyStr "Q"],
        [PyStr "P"], [PyStr "X"; PyStr "X"]).
Proof. vm_compute. reflexivity. Qed.

(** ** More on the week mode *)

(** X13. The calendar rule holds exactly on the first Monday of an
    odd-numbered month: the date is a Monday, no earlier day of the same month
    is a Monday, and the month number is odd. *)
Theorem is_first_monday_odd_month_first_monday (today : date) :
  is_first_monday_odd_month today = true ↔
  Z.Odd (month today) ∧ 1 ≤ day today ∧ weekday today = 0
  ∧ ∀ e, 1 ≤ e < day today →
      weekday {| year := year today; month := month today; day := e |} ≠ 0.
Proof.
  rewrite is_first_monday_odd_month_spec. split.
  - intros (Hodd & [H1 H7] & Hmon). split; [done|]. split; [done|].
    by apply first_monday_of_month.
  - intros (Hodd & H1 & Hmon & Hfirst). split; [done|].
    destruct (proj2 (first_monday_of_month today H1)) as [_ H7]; [done|].
    done.
Qed.

Lemma weekday_of_day (y m d : Z) :
  weekday {| year := y; month := m; day := d |}
  = (days_before_year y + days_before_month y m + d + 6) `mod` 7.
Proof. done. Qed.

(** X14. Every odd-numbered month has exactly one day on which the calendar
    rule holds, so that exactly one of its Monday jobs is a special one; an
    even-numbered month has none. *)
Theorem one_special_day_per_odd_month (y m : Z) :
  (Z.Odd m →
   ∃ d, is_first_monday_odd_month {| year := y; month := m; day := d |} = true
     ∧ ∀ d', is_first_monday_odd_month
               {| year := y; month := m; day := d' |} = true → d' = d)
  ∧ (Z.Even m →
     ∀ d, is_first_monday_odd_month {| year := y; month := m; day := d |}
          = false).
Proof.
  split.
  - intros Hodd.
    set (base := days_before_year y + days_before_month y m).
    pose proof (Z.mod_pos_bound (base + 6) 7 ltac:(lia)) as Hr.
    pose proof (Z.div_mod (base + 6) 7 ltac:(lia)) as Hdm.
    exists (7 - (base + 6) `mod` 7). split.
    + apply is_first_monday_odd_month_spec. simpl. split; [done|].
      split; [lia|]. rewrite weekday_of_day. fold base.
      replace (base + (7 - (base + 6) `mod` 7) + 6)
        with (((base + 6) `div` 7 + 1) * 7) by lia.
      apply Z_mod_mult.
    + intros d' Hd'. apply is_first_monday_odd_month_spec in Hd'.
      simpl in Hd'. destruct Hd' as (_ & Hrange & Hmon).
      rewrite weekday_of_day in Hmon. fold base in Hmon.
      pose proof (Z.div_mod (base + d' + 6) 7 ltac:(lia)) as Hdm'.
      lia.
  - intros Heven d. apply not_true_is_false. intros H.
    apply is_first_monday_odd_month_spec in H as [Hodd _]. simpl in Hodd.
    destruct Heven as [a ->], Hodd as [b Hb]. lia.
Qed.

(** ** More on the composer *)

Section ComposerMore.
Variable config : gmap string role.
Variable files : gmap string roster_file.

(** What one rotator call can do to the state, whatever its outcome. *)
Lemma get_list_with_advance_frame (key : string) (advance : bool)
    (state : State) :
  let state' := snd (get_list_with_advance config files key advance state) in
  override state' = override state
  ∧ (∀ k, k ≠ key → indexes state' !! k = indexes state !! k)
  ∧ dom (indexes state') = dom (indexes state)
  ∧ (advance = false → state' = state).
Proof.
  unfold get_list_with_advance, mbind, M_bind, lift, get, put, mret, M_ret.
  destruct (load_csv_list config files key) as [names|e]; [|done].
  destruct names as [|a names'] eqn:E; [done|]. rewrite <- E.
  unfold dict_get.
  destruct (indexes state !! key) as [c|] eqn:Hc; [|done].
  destruct (config !! key) as [r|]; [|done].
  destruct (next_items names _ _); [|done].
  destruct advance; [|done].
  destruct (advance_index _ _ _) as [i|]; [|done]. simpl.
  split; [done|]. split; [|split; [|done]].
  - intros k Hk. by rewrite lookup_insert_ne.
  - rewrite dom_insert_L. apply elem_of_dom_2 in Hc.
    apply subseteq_union_1_L. by apply singleton_subseteq_l.
Qed.

(** The names a rotator call returns depend on the state through the role's
    own cursor only. *)
Lemma get_list_with_advance_reads (key : string) (a1 a2 : bool)
    (s1 s2 : State) :
  indexes s1 !! key = indexes s2 !! key →
  fst (get_list_with_advance config files key a1 s1)
  = fst (get_list_with_advance config files key a2 s2).
Proof.
  intros Heq.
  unfold get_list_with_advance, mbind, M_bind, lift, get, put, mret, M_ret.
  destruct (load_csv_list config files key) as [names|e]; [|done].
  destruct names as [|a names'] eqn:E; [done|]. rewrite <- E.
  unfold dict_get. rewrite Heq.
  destruct (indexes s2 !! key) as [c|]; [|done].
  destruct (config !! key) as [r|]; [|done].
  destruct (next_items names _ _); [|done].
  unfold advance_index, py_mod.
  destruct (Z.eqb_spec (Z.of_nat (length names)) 0) as [H0|_].
  { rewrite E in H0. simpl in H0. lia. }
  by destruct a1, a2.
Qed.

Lemma rotation_frame (keys : list string) (advance : bool) :
  ∀ state : State,
    let state' :=
      snd (mapM (λ key, get_list_with_advance config files key advance)
             keys state) in
    override state' = override state
    ∧ (∀ k, k ∉ keys → indexes state' !! k = indexes state !! k)
    ∧ dom (indexes state') = dom (indexes state)
    ∧ (advance = false → state' = state).
Proof.
  induction keys as [|key keys IH]; intros state; [done|].
  cbv zeta. cbn [mapM]. unfold mbind, M_bind, mret, M_ret.
  pose proof (get_list_with_advance_frame key advance state) as Hone.
  cbv zeta in Hone. destruct Hone as (Hov & Hfr & Hdom & Hpre).
  destruct (get_list_with_advance config files key advance state)
    as [[picked|e] st1]; simpl in *.
  - pose proof (IH st1) as Hrest. cbv zeta in Hrest.
    destruct Hrest as (Hov' & Hfr' & Hdom' & Hpre').
    destruct (mapM (λ key, get_list_with_advance config files key advance)
                keys st1) as [[sels|e] st2]; simpl in *.
    + split; [congruence|]. split; [|split; [congruence|]].
      * intros k Hk. apply not_elem_of_cons in Hk as [??].
        rewrite Hfr', Hfr; done.
      * intros Hf. rewrite Hpre', Hpre; done.
    + split; [congruence|]. split; [|split; [congruence|]].
      * intros k Hk. apply not_elem_of_cons in Hk as [??].
        rewrite Hfr', Hfr; done.
      * intros Hf. rewrite Hpre', Hpre; done.
  - split; [done|]. split; [|done].
    intros k Hk. apply not_elem_of_cons in Hk as [??]. by apply Hfr.
Qed.

Lemma rotation_reads (keys : list string) (a1 a2 : bool) :
  NoDup keys →
  ∀ s1 s2 : State,
    (∀ k, k ∈ keys → indexes s1 !! k = indexes s2 !! k) →
    fst (mapM (λ key, get_list_with_advance config files key a1) keys s1)
    = fst (mapM (λ key, get_list_with_advance config files key a2) keys s2).
Proof.
  intros Hnd. induction Hnd as [|key keys Hnotin Hnd IH]; intros s1 s2 Heq;
    [done|].
  cbn [mapM]. unfold mbind, M_bind, mret, M_ret.
  pose proof (get_list_with_advance_reads key a1 a2 s1 s2
                (Heq key ltac:(by left))) as Hfst.
  pose proof (get_list_with_advance_frame key a1 s1) as Hf1.
  pose proof (get_list_with_advance_frame key a2 s2) as Hf2.
  cbv zeta in Hf1, Hf2.
  destruct Hf1 as (_ & Hfr1 & _), Hf2 as (_ & Hfr2 & _).
  destruct (get_list_with_advance config files key a1 s1) as [[p1|e1] t1],
           (get_list_with_advance config files key a2 s2) as [[p2|e2] t2];
    simpl in *; simplify_eq; [|done].
  specialize (IH t1 t2).
  destruct (mapM (λ key, get_list_with_advance config files key a1) keys t1)
    as [[l1|e1] u1],
    (mapM (λ key, get_list_with_advance config files key a2) keys t2)
    as [[l2|e2] u2]; simpl in *.
  all: assert (∀ k, k ∈ keys → indexes t1 !! k = indexes t2 !! k) as Hagree
    by (intros k Hk; rewrite Hfr1, Hfr2 by (intros ->; done);
        apply Heq; by right).
  all: specialize (IH Hagree); by simplify_eq.
Qed.

(** The resolver and the week mode hand the state on untouched and do not
    look at the cursors. *)
Lemma resolve_duplicates_pure
    (hymn bread_bro sharing topic pianist : list pyval) (s1 s2 : State) :
  fst (resolve_duplicates config files hymn bread_bro sharing topic pianist s1)
  = fst (resolve_duplicates config files hymn bread_bro sharing topic pianist s2)
  ∧ snd (resolve_duplicates config files hymn bread_bro sharing topic pianist s1)
    = s1.
Proof.
  unfold resolve_duplicates, mbind, M_bind, lift, mret, M_ret.
  repeat match goal with
         | |- context [match ?r with Ok _ => _ | Raise _ => _ end] =>
             destruct r; try done
         end.
Qed.

Lemma is_special_week_reads (today : date) (s1 s2 : State) :
  override s1 = override s2 →
  fst (is_special_week today s1) = fst (is_special_week today s2)
  ∧ snd (is_special_week today s1) = s1.
Proof.
  intros Heq. unfold is_special_week, mbind, M_bind, get, mret, M_ret.
  rewrite Heq. by repeat case_decide.
Qed.

(** The state [compose_message] ends with is the one the rotation leaves. *)
Lemma compose_message_state (advance : bool) (today : date) (state : State) :
  snd (compose_message config files advance today state)
  = snd (mapM (λ key, get_list_with_advance config files key advance)
           role_keys state).
Proof.
  rewrite compose_message_stages.
  destruct (mapM (λ key, get_list_with_advance config files key advance)
              role_keys state) as [[sels|e] st1]; [|done].
  destruct sels as [|hymn [|bb [|bs [|bk [|sh [|pi [|to [|ur [|? ?]]]]]]]]];
    try done.
  pose proof (resolve_duplicates_pure hymn bb sh to pi st1 st1) as [_ Hst].
  destruct (resolve_duplicates _ _ _ _ _ _ _ st1)
    as [[[[[[? ?] ?] ?] ?]|?] st2]; simpl in Hst; subst st2; [|done].
  pose proof (is_special_week_reads today st1 st1 eq_refl) as [_ Hst].
  by destruct (is_special_week today st1) as [[?|?] st3]; simpl in Hst;
    subst st3.
Qed.

(** X15. Composing with [advance] off leaves the state exactly as it was,
    whether the call returns a text or raises. *)
Theorem compose_message_preview_keeps_state (today : date) (state : State) :
  snd (compose_message config files false today state) = state.
Proof.
  rewrite compose_message_state.
  pose proof (rotation_frame role_keys false state) as H. cbv zeta in H.
  by apply H.
Qed.

(** X16. The text (or the error) of a preview is the text (or the error) of
    the advancing call on the same state and date: previewing shows what the
    real run will send. *)
Theorem compose_message_preview_same_text (today : date) (state : State) :
  fst (compose_message config files false today state)
  = fst (compose_message config files true today state).
Proof.
  rewrite !compose_message_stages.
  pose proof (rotation_reads role_keys false true role_keys_NoDup state state
                ltac:(done)) as Hsel.
  pose proof (rotation_frame role_keys false state) as Hf1.
  pose proof (rotation_frame role_keys true state) as Hf2.
  cbv zeta in Hf1, Hf2. destruct Hf1 as (Hov1 & _), Hf2 as (Hov2 & _).
  destruct (mapM (λ key, get_list_with_advance config files key false)
              role_keys state) as [[sels1|e1] s1],
           (mapM (λ key, get_list_with_advance config files key true)
              role_keys state) as [[sels2|e2] s2];
    simpl in *; simplify_eq; [|done].
  destruct sels2 as [|hymn [|bb [|bs [|bk [|sh [|pi [|to [|ur [|? ?]]]]]]]]];
    try done.
  destruct (resolve_duplicates_pure hymn bb sh to pi s1 s2) as [Hres Hst1].
  destruct (resolve_duplicates_pure hymn bb sh to pi s2 s1) as [_ Hst2].
  destruct (resolve_duplicates _ _ _ _ _ _ _ s1)
    as [[[[[[? ?] ?] ?] ?]|?] t1],
    (resolve_duplicates _ _ _ _ _ _ _ s2) as [[[[[[? ?] ?] ?] ?]|?] t2];
    simpl in *; simplify_eq; [|done].
  destruct (is_special_week_reads today s1 s2 ltac:(congruence)) as [Hsp _].
  by destruct (is_special_week today s1) as [[?|?] ?],
     (is_special_week today s2) as [[?|?] ?]; simpl in *; simplify_eq.
Qed.

(** X17. Whatever its outcome, [compose_message] keeps the override, the
    cursors stored under keys that are not roles, and the set of keys that
    have a cursor: it neither creates nor drops a cursor. *)
Theorem compose_message_frame (advance : bool) (today : date) (state : State) :
  let state' := snd (compose_message config files advance today state) in
  override state' = override state
  ∧ (∀ k, k ∉ role_keys → indexes state' !! k = indexes state !! k)
  ∧ dom (indexes state') = dom (indexes state).
Proof.
  cbv zeta. rewrite compose_message_state.
  pose proof (rotation_frame role_keys advance state) as H. cbv zeta in H.
  destruct H as (? & ? & ? & _). done.
Qed.
End ComposerMore.

(** With the shipped configuration and readable roster files,
    [has_cursors] is kept by the composer, which then cannot fail. *)
Lemma has_cursors_compose_message (files : gmap string roster_file)
    (advance : bool) (today : date) (state : State) :
  rosters_readable files →
  has_cursors state →
  ∃ msg state',
    compose_message LIST_CONFIG files advance today state = (Ok msg, state')
    ∧ has_cursors state'.
Proof.
  intros Hread Hcur.
  destruct (compose_message_run LIST_CONFIG files advance today state)
    as (hymn & bread_bro & bread_sis & baking & sharing & pianist & topic & url
        & state' & special & Hrun & _).
  { intros key Hk. apply load_csv_list_readable; [|by apply Hread].
    by apply LIST_CONFIG_roles. }
  { intros key names Hk _ _. by apply Hcur. }
  eexists _, state'. split; [exact Hrun|].
  intros key Hk.
  pose proof (compose_message_state LIST_CONFIG files advance today state)
    as Hst.
  pose proof (rotation_frame LIST_CONFIG files role_keys advance state) as H.
  cbv zeta in H. destruct H as (_ & _ & Hdom & _).
  rewrite <- Hst, Hrun in Hdom. cbn [snd] in Hdom.
  apply elem_of_dom. rewrite Hdom. apply elem_of_dom. by apply Hcur.
Qed.

(** X18. With the shipped configuration, from a state that has a cursor for
    each of the eight roles, composing returns a text whatever text the
    roster files hold, provided each roster file that exists can be read as
    UTF-8 text; the state it leaves again has a cursor for each role. *)
Theorem compose_message_never_fails (files : gmap string roster_file)
    (advance : bool) (today : date) (state : State) :
  rosters_readable files →
  has_cursors state →
  ∃ msg state',
    compose_message LIST_CONFIG files advance today state = (Ok msg, state')
    ∧ has_cursors state'.
Proof. apply has_cursors_compose_message. Qed.

Lemma compose_message_never_fails_witness :
  ∃ msg state',
    compose_message LIST_CONFIG sample_files true
      {| year := 2025; month := 3; day := 10 |} (DEFAULT_STATE LIST_CONFIG)
    = (Ok msg, state')
    ∧ has_cursors state'.
Proof.
  apply (compose_message_never_fails sample_files true
           {| year := 2025; month := 3; day := 10 |} (DEFAULT_STATE LIST_CONFIG)).
  - exact sample_files_readable.
  - intros key Hk. rewrite (DEFAULT_STATE_cursors key Hk). eauto.
Defined.

(** ** More on the weekly job and the commands *)

Lemma has_cursors_DEFAULT_STATE : has_cursors (DEFAULT_STATE LIST_CONFIG).
Proof. intros key Hk. rewrite (DEFAULT_STATE_cursors key Hk). eauto. Qed.

(** [weekly_job] by the outcome of its two fallible steps. *)
Lemma weekly_job_unfold (config : gmap string role) (today : date) (d : disk) :
  weekly_job config today d =
    match load_state config d with
    | (Ok state, d1) =>
        match compose_message config (csv_files d1) true today state with
        | (Ok message, new_state) =>
            (Ok [Push message],
             {| csv_files := csv_files d1;
                STATE_FILE := Some (Json new_state);
                THIS_WEEK_FILE := Some (Json {[ "text" := message ]}) |})
        | (Raise e, _) => (Raise e, d1)
        end
    | (Raise e, d1) => (Raise e, d1)
    end.
Proof.
  unfold weekly_job, mbind, M_bind, get, lift, save_state, save_this_week, put,
    mret, M_ret.
  destruct (load_state config d) as [[state|e] d1]; [|done].
  by destruct (compose_message config (csv_files d1) true today state)
    as [[message|e] new_state].
Qed.

Lemma load_state_healthy (d : disk) :
  healthy d →
  ∃ state d1, load_state LIST_CONFIG d = (Ok state, d1)
    ∧ has_cursors state
    ∧ csv_files d1 = csv_files d ∧ THIS_WEEK_FILE d1 = THIS_WEEK_FILE d.
Proof.
  intros Hd. rewrite load_state_unfold. unfold healthy in Hd.
  destruct (STATE_FILE d) as [[state| |]|]; try done.
  - by exists state, d.
  - eexists _, _. split; [done|]. split; [|done].
    apply has_cursors_DEFAULT_STATE.
Qed.

Lemma weekly_job_healthy (today : date) (d : disk) :
  rosters_readable (csv_files d) →
  healthy d →
  ∃ msg state',
    weekly_job LIST_CONFIG today d =
      (Ok [Push msg],
       {| csv_files := csv_files d; STATE_FILE := Some (Json state');
          THIS_WEEK_FILE := Some (Json {[ "text" := msg ]}) |})
    ∧ has_cursors state'.
Proof.
  intros Hread Hd. rewrite weekly_job_unfold.
  destruct (load_state_healthy d Hd) as (state & d1 & -> & Hcur & Hcsv & _).
  rewrite <- Hcsv in Hread.
  destruct (has_cursors_compose_message (csv_files d1) true today state
              Hread Hcur) as (msg & state' & -> & Hcur').
  exists msg, state'. by rewrite Hcsv.
Qed.

(** X19. With the shipped configuration, on a data directory whose state
    file is absent or holds a state with a cursor for each role, and whose
    roster files can be read as UTF-8 text, the weekly job succeeds whatever
    text the roster files hold: it pushes one text, stores that very text as
    the snapshot, stores a state that again has a cursor for each role, and
    leaves the roster files alone. *)
Theorem weekly_job_succeeds (today : date) (d : disk) :
  rosters_readable (csv_files d) →
  healthy d →
  ∃ msg d',
    weekly_job LIST_CONFIG today d = (Ok [Push msg], d')
    ∧ THIS_WEEK_FILE d' = Some (Json {[ "text" := msg ]})
    ∧ csv_files d' = csv_files d
    ∧ (∃ state', STATE_FILE d' = Some (Json state') ∧ has_cursors state')
    ∧ healthy d'.
Proof.
  intros Hread Hd.
  destruct (weekly_job_healthy today d Hread Hd) as (msg & state' & -> & Hcur).
  eexists msg, _. split; [done|]. split; [done|]. split; [done|].
  split; [by exists state'|done].
Qed.

Lemma weekly_job_succeeds_witness :
  ∃ msg d',
    weekly_job LIST_CONFIG {| year := 2025; month := 3; day := 3 |}
      {| csv_files := sample_files; STATE_FILE := None;
         THIS_WEEK_FILE := None |} = (Ok [Push msg], d')
    ∧ THIS_WEEK_FILE d' = Some (Json {[ "text" := msg ]})
    ∧ csv_files d' = sample_files
    ∧ (∃ state', STATE_FILE d' = Some (Json state') ∧ has_cursors state')
    ∧ healthy d'.
Proof.
  apply (weekly_job_succeeds {| year := 2025; month := 3; day := 3 |}
           {| csv_files := sample_files; STATE_FILE := None;
              THIS_WEEK_FILE := None |}).
  - exact sample_files_readable.
  - exact I.
Defined.

(** X20. Hence the job keeps running: over any number of weeks, whatever the
    dates and however the text of the roster files is edited from one week to
    the next, as long as each week's roster files can be read as UTF-8 text,
    every weekly job succeeds and pushes one text. *)
Theorem weekly_jobs_never_fail (weeks : list (date * gmap string roster_file))
    (d : disk) :
  Forall (λ week, rosters_readable (snd week)) weeks →
  healthy d →
  ∃ sent d',
    weekly_jobs LIST_CONFIG weeks d = (Ok sent, d')
    ∧ length sent = length weeks
    ∧ healthy d'.
Proof.
  intros Hread. revert d.
  induction Hread as [|[today rosters] later Hweek Hlater IH]; intros d Hd.
  { by exists [], d. }
  cbn [weekly_jobs]. unfold mbind, M_bind, get, put, mret, M_ret.
  set (d0 := {| csv_files := rosters; STATE_FILE := STATE_FILE d;
                THIS_WEEK_FILE := THIS_WEEK_FILE d |}).
  assert (healthy d0) as Hd0 by done.
  destruct (weekly_job_healthy today d0 Hweek Hd0)
    as (msg & state' & -> & Hcur).
  set (d1 := {| csv_files := csv_files d0; STATE_FILE := Some (Json state');
                THIS_WEEK_FILE := Some (Json {[ "text" := msg ]}) |}).
  destruct (IH d1) as (sent & d' & -> & Hlen & Hd'); [done|].
  exists (Push msg :: sent), d'. split; [done|]. split; [|done].
  simpl. by rewrite Hlen.
Qed.

Lemma weekly_jobs_never_fail_witness :
  ∃ sent d',
    weekly_jobs LIST_CONFIG
      [({| year := 2025; month := 3; day := 3 |}, sample_files);
       ({| year := 2025; month := 3; day := 10 |}, full_files)]
      {| csv_files := ∅; STATE_FILE := None; THIS_WEEK_FILE := None |}
    = (Ok sent, d')
    ∧ length sent = 2%nat
    ∧ healthy d'.
Proof.
  apply (weekly_jobs_never_fail
           [({| year := 2025; month := 3; day := 3 |}, sample_files);
            ({| year := 2025; month := 3; day := 10 |}, full_files)]
           {| csv_files := ∅; STATE_FILE := None; THIS_WEEK_FILE := None |}).
  - repeat constructor.
    + exact sample_files_readable.
    + exact full_files_readable.
  - exact I.
Defined.

(** X21. A weekly job that fails persists nothing of the rotation: the
    roster files and the snapshot are as before, and the state file is as
    before too, except that a missing one has been created with the default
    state. *)
Theorem weekly_job_failure_persists_nothing (config : gmap string role)
    (today : date) (d d' : disk) (e : exn) :
  weekly_job config today d = (Raise e, d') →
  csv_files d' = csv_files d
  ∧ THIS_WEEK_FILE d' = THIS_WEEK_FILE d
  ∧ (STATE_FILE d' = STATE_FILE d
     ∨ (STATE_FILE d = None
        ∧ STATE_FILE d' = Some (Json (DEFAULT_STATE config)))).
Proof.
  rewrite weekly_job_unfold, load_state_unfold.
  destruct (STATE_FILE d) as [[state| |]|] eqn:E.
  - destruct (compose_message _ _ _ _ _) as [[?|?] ?]; [done|].
    intros [= <- <-]. rewrite E. eauto.
  - intros [= <- <-]. rewrite E. eauto.
  - intros [= <- <-]. rewrite E. eauto.
  - destruct (compose_message _ _ _ _ _) as [[?|?] ?]; [done|].
    intros [= <- <-]. simpl. eauto.
Qed.

Lemma weekly_job_failure_persists_nothing_witness :
  csv_files {| csv_files := sample_files; STATE_FILE := Some Garbled;
               THIS_WEEK_FILE := None |} = sample_files
  ∧ THIS_WEEK_FILE {| csv_files := sample_files; STATE_FILE := Some Garbled;
                      THIS_WEEK_FILE := None |} = None
  ∧ (STATE_FILE {| csv_files := sample_files; STATE_FILE := Some Garbled;
                   THIS_WEEK_FILE := None |} = Some Garbled
     ∨ ((Some Garbled : option (stored State)) = None
        ∧ STATE_FILE {| csv_files := sample_files; STATE_FILE := Some Garbled;
                        THIS_WEEK_FILE := None |}
          = Some (Json (DEFAULT_STATE LIST_CONFIG)))).
Proof.
  apply (weekly_job_failure_persists_nothing LIST_CONFIG
           {| year := 2025; month := 3; day := 3 |}
           {| csv_files := sample_files; STATE_FILE := Some Garbled;
              THIS_WEEK_FILE := None |}
           {| csv_files := sample_files; STATE_FILE := Some Garbled;
              THIS_WEEK_FILE := None |} JSONDecodeError).
  reflexivity.
Defined.

Lemma resend_is_not_status (text : string) :
  String.prefix "!resend" text = true → String.prefix "!status" text = false.
Proof.
  destruct text as [|c1 text1]; [done|]. cbn [String.prefix].
  destruct (Ascii.ascii_dec _ c1); [|done].
  destruct text1 as [|c2 text2]; [done|]. cbn [String.prefix].
  destruct (Ascii.ascii_dec _ c2) as [<-|]; [|done].
  intros _. by destruct (Ascii.ascii_dec _ _).
Qed.

(** X22. After a successful weekly job, a resend request (any text that,
    once stripped, starts with "!resend"), on any later date, pushes exactly
    the text the job pushed, replies "Resent.", and changes nothing in the
    data directory: it does not rotate again. *)
Theorem resend_repeats_weekly_text (config : gmap string role)
    (today later : date) (d d1 : disk) (sent : list action) (text : string) :
  weekly_job config today d = (Ok sent, d1) →
  String.prefix "!resend" (strip text) = true →
  ∃ msg, sent = [Push msg]
    ∧ handle_message config text later d1
      = (Ok [Push msg; Reply "Resent."], d1).
Proof.
  rewrite weekly_job_unfold. intros Hjob Hcmd.
  destruct (load_state config d) as [[state|] d0]; [|done].
  destruct (compose_message _ _ _ _ _) as [[msg|] new_state]; [|done].
  injection Hjob as <- <-. exists msg. split; [done|].
  unfold handle_message. rewrite (resend_is_not_status _ Hcmd), Hcmd.
  unfold load_this_week, mbind, M_bind, get, lift, mret, M_ret. simpl.
  by rewrite lookup_singleton_eq.
Qed.

Lemma resend_repeats_weekly_text_witness :
  ∃ msg,
    [Push (special_text ["Q"] ["X"; "X"])] = [Push msg]
    ∧ handle_message LIST_CONFIG " !resend please"
        {| year := 2025; month := 3; day := 5 |}
        (snd (weekly_job LIST_CONFIG {| year := 2025; month := 3; day := 3 |}
                {| csv_files := full_files; STATE_FILE := None;
                   THIS_WEEK_FILE := None |}))
      = (Ok [Push msg; Reply "Resent."],
         snd (weekly_job LIST_CONFIG {| year := 2025; month := 3; day := 3 |}
                {| csv_files := full_files; STATE_FILE := None;
                   THIS_WEEK_FILE := None |})).
Proof.
  apply (resend_repeats_weekly_text LIST_CONFIG
           {| year := 2025; month := 3; day := 3 |}
           {| year := 2025; month := 3; day := 5 |}
           {| csv_files := full_files; STATE_FILE := None;
              THIS_WEEK_FILE := None |}).
  - vm_compute. reflexivity.
  - vm_compute. reflexivity.
Defined.

(** X23. No chat command rotates: whatever the text and the date, and
    whether the handler replies or raises, it leaves the roster files and the
    snapshot as they were, and a state file that exists as it was; the only
    thing it can write is the default state, when the state file is missing. *)
Theorem handle_message_frame (config : gmap string role) (text : string)
    (today : date) (d : disk) :
  let d' := snd (handle_message config text today d) in
  csv_files d' = csv_files d
  ∧ THIS_WEEK_FILE d' = THIS_WEEK_FILE d
  ∧ (STATE_FILE d' = STATE_FILE d
     ∨ (STATE_FILE d = None
        ∧ STATE_FILE d' = Some (Json (DEFAULT_STATE config)))).
Proof.
  cbv zeta.
  destruct (handle_message config text today d) as [r d'] eqn:Hrun.
  cbn [snd]. revert Hrun. unfold handle_message.
  destruct (String.prefix "!status" (strip text)).
  - unfold mbind, M_bind at 1. rewrite load_state_unfold.
    destruct (STATE_FILE d) as [[state| |]|] eqn:E.
    all: unfold lift, mbind, M_bind, mret, M_ret.
    all: try destruct (fst (is_special_week today _)).
    all: intros [= <- <-]; simpl; rewrite ?E; eauto.
  - destruct (String.prefix "!resend" (strip text)).
    + unfold load_this_week, mbind, M_bind, get, lift, mret, M_ret.
      destruct (THIS_WEEK_FILE d) as [w|] eqn:E;
        [|simpl; intros [= <- <-]; eauto].
      destruct (read_json (Some w)); simpl; intros [= <- <-]; eauto.
    + intros [= <- <-]. eauto.
Qed.

(** X24. A restart does not rotate again: once the start-up block has run
    successfully there is a snapshot, so running it again, on any date, runs
    no weekly job, sends nothing and leaves the data directory as it is. *)
Theorem main_restart_is_idle (config : gmap string role) (today later : date)
    (d d1 : disk) (sent : list action) :
  main config today d = (Ok sent, d1) →
  main config later d1 = (Ok [], d1).
Proof.
  unfold main, mbind, M_bind, get at 1.
  destruct (THIS_WEEK_FILE d) as [w|] eqn:E.
  - intros [= <- <-]. unfold get. by rewrite E.
  - rewrite weekly_job_unfold.
    destruct (load_state config d) as [[state|] d0]; [|done].
    destruct (compose_message _ _ _ _ _) as [[msg|] new_state]; [|done].
    by intros [= <- <-].
Qed.

Lemma main_restart_is_idle_witness :
  main LIST_CONFIG {| year := 2025; month := 3; day := 11 |}
    (snd (main LIST_CONFIG {| year := 2025; month := 3; day := 4 |}
            {| csv_files := sample_files; STATE_FILE := None;
               THIS_WEEK_FILE := None |}))
  = (Ok [],
     snd (main LIST_CONFIG {| year := 2025; month := 3; day := 4 |}
            {| csv_files := sample_files; STATE_FILE := None;
               THIS_WEEK_FILE := None |})).
Proof.
  apply (main_restart_is_idle LIST_CONFIG
           {| year := 2025; month := 3; day := 4 |}
           {| year := 2025; month := 3; day := 11 |}
           {| csv_files := sample_files; STATE_FILE := None;
              THIS_WEEK_FILE := None |} _
           [Push (normal_text ["A　B"; "D　E"; "x　y"; ""; "Q";
                               "（六）X　（日）X"; "P"; "u1"])]).
  vm_compute. reflexivity.
Defined.

(** ** The roster loader *)

Lemma append_nil_r (s : string) : s +:+ "" = s.
Proof.
  induction s as [|c s IH]; [done|].
  change (String c s +:+ "") with (String c (s +:+ "")). by rewrite IH.
Qed.

Lemma append_cons (c : Ascii.ascii) (s t : string) :
  String c s +:+ t = String c (s +:+ t).
Proof. done. Qed.

Lemma concat_empty_cons (c : string) (l : list string) :
  String.concat "" (c :: l) = c +:+ String.concat "" l.
Proof. destruct l; [by rewrite append_nil_r | done]. Qed.

Lemma concat_empty_app (l1 l2 : list string) :
  String.concat "" (l1 ++ l2) = String.concat "" l1 +:+ String.concat "" l2.
Proof.
  induction l1 as [|c l1 IH]; [done|].
  change ((c :: l1) ++ l2)%list with (c :: (l1 ++ l2))%list.
  by rewrite !concat_empty_cons, IH, append_assoc.
Qed.

(** *** Characters of a string *)

Lemma utf8_group_concat (s : string) :
  fst (utf8_group s) +:+ String.concat "" (snd (utf8_group s)) = s.
Proof.
  induction s as [|b s IH]; [done|].
  cbn [utf8_group]. destruct (utf8_group s) as [pend cs]. simpl in IH.
  destruct (is_continuation b); cbn [fst snd].
  - by rewrite append_cons, IH.
  - rewrite concat_empty_cons.
    change ("" +:+ ?x) with x. by rewrite append_cons, IH.
Qed.

Lemma utf8_chars_concat (s : string) : String.concat "" (utf8_chars s) = s.
Proof.
  pose proof (utf8_group_concat s) as H. unfold utf8_chars.
  destruct (utf8_group s) as [pend cs]. cbn [fst snd] in H.
  destruct pend as [|b pend]; [done|]. by rewrite concat_empty_cons.
Qed.

Lemma utf8_group_shape (s : string) :
  all_continuation (fst (utf8_group s)) = true
  ∧ Forall (λ c, utf8_char c = true) (snd (utf8_group s)).
Proof.
  induction s as [|b s [IH1 IH2]]; [by split|].
  cbn [utf8_group]. destruct (utf8_group s) as [pend cs]. cbn [fst snd] in *.
  destruct (is_continuation b) eqn:Hb; cbn [fst snd].
  - split; [|done]. cbn. by rewrite Hb, IH1.
  - split; [done|]. constructor; [|done]. cbn. by rewrite Hb, IH1.
Qed.

Lemma utf8_group_continuation (p s : string) :
  all_continuation p = true →
  utf8_group (p +:+ s) = (p +:+ fst (utf8_group s), snd (utf8_group s)).
Proof.
  induction p as [|b p IH]; intros Hp.
  - change ("" +:+ s) with s. by destruct (utf8_group s).
  - cbn in Hp. apply andb_true_iff in Hp as [Hb Hp].
    rewrite append_cons. cbn [utf8_group]. rewrite (IH Hp), Hb. done.
Qed.

Lemma utf8_group_char (c s : string) :
  utf8_char c = true →
  utf8_group (c +:+ s)
  = ("", (c +:+ fst (utf8_group s)) :: snd (utf8_group s)).
Proof.
  destruct c as [|b t]; [done|]. cbn. intros H.
  apply andb_true_iff in H as [Hb Ht]. apply negb_true_iff in Hb.
  rewrite append_cons. cbn [utf8_group].
  by rewrite (utf8_group_continuation t s Ht), Hb.
Qed.

Lemma utf8_group_chars (cs : list string) :
  Forall (λ c, utf8_char c = true) cs →
  utf8_group (String.concat "" cs) = ("", cs).
Proof.
  induction 1 as [|c cs Hc _ IH]; [done|].
  rewrite concat_empty_cons, (utf8_group_char _ _ Hc), IH. cbn [fst snd].
  by rewrite append_nil_r.
Qed.

Lemma utf8_chars_segmented (l : list string) :
  segmented l → utf8_chars (String.concat "" l) = l.
Proof.
  destruct l as [|c cs]; [done|]. intros (Hne & [Hc|Hc] & Hcs).
  - unfold utf8_chars. rewrite utf8_group_chars; [done|]. by constructor.
  - unfold utf8_chars.
    rewrite concat_empty_cons, (utf8_group_continuation _ _ Hc),
      (utf8_group_chars _ Hcs). cbn [fst snd]. rewrite append_nil_r.
    by destruct c.
Qed.

Lemma utf8_chars_is_segmented (s : string) : segmented (utf8_chars s).
Proof.
  destruct (utf8_group_shape s) as [Hp Hcs]. unfold utf8_chars.
  destruct (utf8_group s) as [pend cs]. cbn [fst snd] in *.
  destruct pend as [|b pend].
  - destruct Hcs as [|c cs Hc Hcs]; [done|]. split; [by destruct c|].
    split; [by left|done].
  - split; [done|]. split; [by right|done].
Qed.

Lemma segmented_app_r (l1 l2 : list string) :
  segmented (l1 ++ l2) → segmented l2.
Proof.
  destruct l1 as [|c l1]; [done|]. intros (_ & _ & H).
  apply Forall_app in H as [_ H]. destruct H as [|d l2 Hd H]; [done|].
  split; [by destruct d|]. split; [by left|done].
Qed.

Lemma segmented_app_l (l1 l2 : list string) :
  segmented (l1 ++ l2) → segmented l1.
Proof.
  destruct l1 as [|c l1]; [done|]. intros (Hne & Hc & H).
  apply Forall_app in H as [H _]. done.
Qed.

(** *** Trimming *)

Lemma rev_reverse {A} (l : list A) : rev l = reverse l.
Proof. apply rev_alt. Qed.

Lemma last_rev {A} (l : list A) : last (rev l) = head l.
Proof. rewrite rev_reverse. apply last_reverse. Qed.

Lemma elem_of_rev {A} (x : A) (l : list A) : x ∈ rev l ↔ x ∈ l.
Proof. rewrite rev_reverse. apply elem_of_reverse. Qed.

Lemma dropwhile_suffix {A} (p : A → bool) (l : list A) :
  ∃ l1, l = (l1 ++ dropwhile p l)%list ∧ Forall (λ x, p x = true) l1.
Proof.
  induction l as [|x l (l1 & IH & Hall)]; [by exists []|].
  cbn. destruct (p x) eqn:Hx.
  - exists (x :: l1). split; [by rewrite IH at 1|]. by constructor.
  - by exists [].
Qed.

Lemma dropwhile_head {A} (p : A → bool) (l : list A) (x : A) :
  head (dropwhile p l) = Some x → p x = false.
Proof.
  induction l as [|y l IH]; [done|]. cbn. destruct (p y) eqn:Hy; [done|].
  by intros [= <-].
Qed.

Lemma dropwhile_id {A} (p : A → bool) (l : list A) :
  (∀ x, head l = Some x → p x = false) → dropwhile p l = l.
Proof. destruct l as [|y l]; [done|]. intros H. cbn. by rewrite (H y). Qed.

Lemma trim_parts (l : list string) :
  ∃ l1 l3, l = (l1 ++ trim l ++ l3)%list
    ∧ Forall (λ c, isspace c = true) l1 ∧ Forall (λ c, isspace c = true) l3.
Proof.
  destruct (dropwhile_suffix isspace l) as (l1 & H1 & Hs1).
  destruct (dropwhile_suffix isspace (rev (dropwhile isspace l)))
    as (l3 & H3 & Hs3).
  exists l1, (rev l3). split; [|split; [done|]].
  - rewrite H1 at 1. f_equal. unfold trim.
    rewrite <- (rev_involutive (dropwhile isspace l)) at 1.
    rewrite H3 at 1. by rewrite rev_app_distr.
  - apply Forall_forall. intros c Hc. rewrite elem_of_rev in Hc.
    rewrite Forall_forall in Hs3. by apply Hs3.
Qed.

Lemma trim_ends (l : list string) :
  (∀ c, head (trim l) = Some c → isspace c = false)
  ∧ (∀ c, last (trim l) = Some c → isspace c = false).
Proof.
  unfold trim. split.
  - intros c Hc.
    destruct (dropwhile_suffix isspace (rev (dropwhile isspace l)))
      as (l3 & H3 & _).
    set (m := dropwhile isspace l) in *.
    set (t := dropwhile isspace (rev m)) in *.
    assert (m = (rev t ++ rev l3)%list) as Hm.
    { rewrite <- (rev_involutive m), H3. by rewrite rev_app_distr. }
    apply (dropwhile_head isspace l c). fold m. rewrite Hm.
    destruct (rev t); [done|]. done.
  - intros c Hc. rewrite last_rev in Hc. by apply dropwhile_head in Hc.
Qed.

Lemma trim_id (l : list string) :
  (∀ c, head l = Some c → isspace c = false) →
  (∀ c, last l = Some c → isspace c = false) →
  trim l = l.
Proof.
  intros Hh Hl. unfold trim. rewrite (dropwhile_id _ l Hh).
  rewrite dropwhile_id; [apply rev_involutive|].
  intros c Hc. apply Hl. by rewrite <- (rev_involutive l), last_rev.
Qed.

Lemma trim_trim (l : list string) : trim (trim l) = trim l.
Proof. destruct (trim_ends l). by apply trim_id. Qed.

Lemma strip_chars (s : string) : utf8_chars (strip s) = trim (utf8_chars s).
Proof.
  unfold strip. fold (trim (utf8_chars s)). apply utf8_chars_segmented.
  destruct (trim_parts (utf8_chars s)) as (l1 & l3 & H & _).
  pose proof (utf8_chars_is_segmented s) as Hseg. rewrite H in Hseg.
  by apply segmented_app_r, segmented_app_l in Hseg.
Qed.

Lemma strip_strip (s : string) : strip (strip s) = strip s.
Proof.
  unfold strip at 1. fold (trim (utf8_chars (strip s))).
  by rewrite strip_chars, trim_trim.
Qed.

(** *** Commas *)

Lemma no_comma_app (a b : string) :
  no_comma (a +:+ b) = no_comma a && no_comma b.
Proof.
  induction a as [|c a IH]; [done|].
  rewrite append_cons. cbn [no_comma]. by rewrite IH, andb_assoc.
Qed.

Lemma split_comma_nonempty (s : string) : split_comma s ≠ [].
Proof.
  destruct s as [|c s]; [done|]. cbn.
  destruct (Ascii.eqb c _); [done|]. by destruct (split_comma s).
Qed.

Lemma split_comma_no_comma (s : string) :
  Forall (λ p, no_comma p = true) (split_comma s).
Proof.
  induction s as [|c s IH]; [by repeat constructor|].
  cbn [split_comma]. destruct (Ascii.eqb c _) eqn:Hc.
  - by constructor.
  - destruct (split_comma s) as [|h t] eqn:E;
      [by apply split_comma_nonempty in E|].
    apply Forall_cons in IH as [Hh Ht]. constructor; [|done].
    cbn [no_comma]. by rewrite Hc, Hh.
Qed.

Lemma split_comma_piece (a b : string) :
  no_comma a = true →
  split_comma (a +:+ "," +:+ b) = a :: split_comma b.
Proof.
  induction a as [|c a IH]; [done|]. cbn [no_comma]. intros H.
  apply andb_true_iff in H as [Hc Ha]. apply negb_true_iff in Hc.
  rewrite append_cons. cbn [split_comma]. by rewrite Hc, (IH Ha).
Qed.

Lemma split_comma_single (a : string) :
  no_comma a = true → split_comma a = [a].
Proof.
  induction a as [|c a IH]; [done|]. cbn [no_comma]. intros H.
  apply andb_true_iff in H as [Hc Ha]. apply negb_true_iff in Hc.
  cbn [split_comma]. by rewrite Hc, (IH Ha).
Qed.

Lemma split_comma_concat (names : list string) :
  names ≠ [] → Forall (λ n, no_comma n = true) names →
  split_comma (String.concat "," names) = names.
Proof.
  intros Hne Hall. induction Hall as [|n names Hn Hall IH]; [done|].
  destruct names as [|m names'].
  - by apply split_comma_single.
  - change (String.concat "," (n :: m :: names'))
      with (n +:+ "," +:+ String.concat "," (m :: names')).
    rewrite (split_comma_piece _ _ Hn), IH; done.
Qed.

Lemma strip_no_comma (s : string) :
  no_comma s = true → no_comma (strip s) = true.
Proof.
  intros Hs. destruct (trim_parts (utf8_chars s)) as (l1 & l3 & H & _).
  pose proof (utf8_chars_concat s) as Hc. rewrite H in Hc.
  rewrite !concat_empty_app in Hc. fold (strip s) in Hc.
  rewrite <- Hc, !no_comma_app in Hs.
  apply andb_true_iff in Hs as [_ Hs]. by apply andb_true_iff in Hs as [Hs _].
Qed.

(** X25. Every name the roster loader returns is a non-empty string without
    a comma and with nothing left to strip, whatever the file holds. *)
Theorem load_csv_list_names_clean (config : gmap string role)
    (files : gmap string roster_file) (key : string) (names : list pyval) :
  load_csv_list config files key = Ok names →
  ∀ x, x ∈ names →
    ∃ s, x = PyStr s ∧ s ≠ "" ∧ no_comma s = true ∧ strip s = s.
Proof.
  unfold load_csv_list, dict_get. destruct (config !! key) as [r|]; [|done].
  cbn. destruct (files !! file r) as [f|];
    [|intros [= <-] x Hx; by apply elem_of_nil in Hx].
  destruct (read_text f) as [text|]; [|done]. cbn. intros [= <-] x Hx.
  apply list_elem_of_fmap in Hx as (s & -> & Hs).
  apply list_elem_of_filter in Hs as [Hne Hs].
  apply list_elem_of_fmap in Hs as (p & -> & Hp).
  exists (strip p). split; [done|]. split; [done|].
  split; [|apply strip_strip].
  apply strip_no_comma.
  pose proof (split_comma_no_comma (strip text)) as Hall.
  rewrite Forall_forall in Hall. by apply Hall.
Qed.

Lemma load_csv_list_names_clean_witness :
  ∃ s, PyStr "B" = PyStr s ∧ s ≠ "" ∧ no_comma s = true ∧ strip s = s.
Proof.
  apply (load_csv_list_names_clean LIST_CONFIG sample_files "hymn"
           [PyStr "A"; PyStr "B"; PyStr "C"]).
  - vm_compute. reflexivity.
  - right. left.
Defined.

(** *** Reading back a written roster *)

Lemma utf8_lead_not_continuation (b : Ascii.ascii) :
  is_Some (utf8_lead (Ascii.N_of_ascii b)) → is_continuation b = false.
Proof.
  destruct b as [[|] [|] [|] [|] [|] [|] [|] [|]]; vm_compute;
    first [reflexivity | by intros [? [=]]].
Qed.

Lemma utf8_valid_starts_clean (s : string) :
  utf8_valid s = true → starts_clean s = true.
Proof.
  destruct s as [|b s]; [done|]. unfold utf8_valid. cbn [utf8_scan starts_clean].
  intros H. rewrite utf8_lead_not_continuation; [done|].
  by destruct (utf8_lead _).
Qed.

Lemma utf8_scan_idle (lo hi : N) (s : string) :
  utf8_scan 0 lo hi s = utf8_valid s.
Proof. by destruct s. Qed.

Lemma utf8_scan_app (a b : string) :
  ∀ (need : nat) (lo hi : N),
    utf8_scan need lo hi a = true →
    utf8_scan need lo hi (a +:+ b) = utf8_valid b.
Proof.
  induction a as [|c a IH]; intros need lo hi Ha.
  - destruct need; [|done]. change ("" +:+ b) with b. apply utf8_scan_idle.
  - rewrite append_cons. cbn [utf8_scan] in *. destruct need as [|k].
    + destruct (utf8_lead _) as [[[k lo'] hi']|]; [|done]. by apply IH.
    + apply andb_true_iff in Ha as [-> Ha]. by apply IH.
Qed.

Lemma utf8_valid_app (a b : string) :
  utf8_valid a = true → utf8_valid (a +:+ b) = utf8_valid b.
Proof. apply utf8_scan_app. Qed.

Lemma utf8_valid_concat_comma (names : list string) :
  Forall (λ n, utf8_valid n = true) names →
  utf8_valid (String.concat "," names) = true.
Proof.
  induction 1 as [|n names Hn Hall IH]; [done|].
  destruct names as [|m names']; [done|].
  change (String.concat "," (n :: m :: names'))
    with (n +:+ "," +:+ String.concat "," (m :: names')).
  by rewrite (utf8_valid_app _ _ Hn), (utf8_valid_app "," _ eq_refl).
Qed.

Lemma no_return_app (a b : string) :
  no_return (a +:+ b) = no_return a && no_return b.
Proof.
  induction a as [|c a IH]; [done|].
  rewrite append_cons. cbn [no_return]. by rewrite IH, andb_assoc.
Qed.

Lemma no_return_concat_comma (names : list string) :
  Forall (λ n, no_return n = true) names →
  no_return (String.concat "," names) = true.
Proof.
  induction 1 as [|n names Hn Hall IH]; [done|].
  destruct names as [|m names']; [done|].
  change (String.concat "," (n :: m :: names'))
    with (n +:+ "," +:+ String.concat "," (m :: names')).
  by rewrite !no_return_app, Hn, IH.
Qed.

Lemma universal_newlines_id (s : string) :
  no_return s = true → universal_newlines s = s.
Proof.
  induction s as [|c s IH]; [done|]. cbn [no_return universal_newlines].
  intros H. apply andb_true_iff in H as [Hc Hs]. apply negb_true_iff in Hc.
  by rewrite Hc, (IH Hs).
Qed.

Lemma read_text_clean_names (names : list string) :
  Forall clean_name names →
  read_text (Bytes (String.concat "," names)) = Ok (String.concat "," names).
Proof.
  intros Hall. unfold read_text.
  rewrite utf8_valid_concat_comma, universal_newlines_id; [done| |].
  - apply no_return_concat_comma. eapply Forall_impl; [exact Hall|].
    by intros n (_ & _ & _ & _ & Hn).
  - eapply Forall_impl; [exact Hall|]. by intros n (_ & _ & _ & Hn & _).
Qed.

Lemma utf8_group_app (a b : string) :
  starts_clean b = true →
  utf8_group (a +:+ b)
  = (fst (utf8_group a), (snd (utf8_group a) ++ snd (utf8_group b))%list).
Proof.
  intros Hb. induction a as [|c a IH].
  - change ("" +:+ b) with b. destruct b as [|c b]; [done|].
    cbn in Hb. apply negb_true_iff in Hb. cbn [utf8_group].
    destruct (utf8_group b). by rewrite Hb.
  - rewrite append_cons. cbn [utf8_group]. rewrite IH.
    destruct (utf8_group a) as [p cs]. cbn [fst snd].
    by destruct (is_continuation c).
Qed.

Lemma utf8_chars_app (a b : string) :
  starts_clean b = true →
  utf8_chars (a +:+ b) = (utf8_chars a ++ utf8_chars b)%list.
Proof.
  intros Hb. unfold utf8_chars. rewrite (utf8_group_app a b Hb).
  assert (fst (utf8_group b) = "") as Hpb.
  { destruct b as [|c b]; [done|]. cbn in Hb. apply negb_true_iff in Hb.
    cbn [utf8_group]. destruct (utf8_group b). by rewrite Hb. }
  destruct (utf8_group a) as [pa ca], (utf8_group b) as [pb cb].
  cbn [fst snd] in *. subst pb. by destruct pa.
Qed.

Lemma utf8_chars_nonempty (s : string) : s ≠ "" → utf8_chars s ≠ [].
Proof.
  intros Hs Hnil. apply Hs. by rewrite <- (utf8_chars_concat s), Hnil.
Qed.

Lemma clean_name_ends (s : string) :
  clean_name s →
  (∀ c, head (utf8_chars s) = Some c → isspace c = false)
  ∧ (∀ c, last (utf8_chars s) = Some c → isspace c = false).
Proof.
  intros (_ & Hstrip & _). pose proof (strip_chars s) as H.
  rewrite Hstrip in H. rewrite H. apply trim_ends.
Qed.

Lemma concat_comma_ends (names : list string) :
  names ≠ [] → Forall clean_name names →
  String.concat "," names ≠ ""
  ∧ starts_clean (String.concat "," names) = true
  ∧ (∀ c, head (utf8_chars (String.concat "," names)) = Some c →
       isspace c = false)
  ∧ (∀ c, last (utf8_chars (String.concat "," names)) = Some c →
       isspace c = false).
Proof.
  intros Hne Hall. induction Hall as [|n names Hn Hall IH]; [done|].
  destruct (clean_name_ends n Hn) as [Hh Hl].
  destruct Hn as (Hn0 & _ & _ & Hvalid & _).
  pose proof (utf8_valid_starts_clean n Hvalid) as Hstart.
  destruct names as [|m names'].
  { cbn [String.concat]. done. }
  destruct IH as (Hne' & Hst' & _ & Hl'); [done|].
  change (String.concat "," (n :: m :: names'))
    with (n +:+ "," +:+ String.concat "," (m :: names')).
  set (t := String.concat "," (m :: names')) in *.
  pose proof (utf8_chars_nonempty n Hn0) as Hcn.
  pose proof (utf8_chars_nonempty t Hne') as Hct.
  rewrite (utf8_chars_app n ("," +:+ t)) by done.
  rewrite (utf8_chars_app "," t) by done.
  split; [by destruct n|]. split; [by destruct n|]. split.
  - intros c. destruct (utf8_chars n); [done|]. apply Hh.
  - intros c. rewrite !last_app.
    destruct (last (utf8_chars t)) eqn:E; [apply Hl'|].
    by apply last_None in E.
Qed.

Lemma strip_concat_comma (names : list string) :
  Forall clean_name names →
  strip (String.concat "," names) = String.concat "," names.
Proof.
  intros Hall. destruct names as [|n names]; [done|].
  destruct (concat_comma_ends (n :: names)) as (_ & _ & Hh & Hl); [done..|].
  unfold strip. fold (trim (utf8_chars (String.concat "," (n :: names)))).
  by rewrite trim_id, utf8_chars_concat.
Qed.

Lemma clean_names_fields (names : list string) :
  Forall clean_name names →
  filter (λ x, x ≠ "") (strip <$> names) = names.
Proof.
  induction 1 as [|m ms (Hm & Hs & _) _ IH]; [done|].
  rewrite fmap_cons, Hs, filter_cons_True by done. by rewrite IH.
Qed.

(** X26. A roster file whose bytes are clean names (UTF-8 text, not empty,
    nothing to strip, no comma, no carriage return) joined by commas loads as
    exactly those names, in the order written. *)
Theorem load_csv_list_reads_back (config : gmap string role)
    (files : gmap string roster_file) (key : string) (r : role)
    (names : list string) :
  config !! key = Some r →
  files !! file r = Some (Bytes (String.concat "," names)) →
  Forall clean_name names →
  load_csv_list config files key = Ok (PyStr <$> names).
Proof.
  intros Hr Hf Hall. unfold load_csv_list, dict_get. rewrite Hr. cbn.
  rewrite Hf, (read_text_clean_names names Hall). cbn.
  rewrite (strip_concat_comma names Hall). do 2 f_equal.
  destruct names as [|n names'] eqn:E; [done|]. rewrite <- E in *.
  rewrite split_comma_concat; [|by rewrite E|].
  - by apply clean_names_fields.
  - eapply Forall_impl; [exact Hall|]. by intros m (_ & _ & Hm & _).
Qed.

Lemma load_csv_list_reads_back_witness :
  load_csv_list LIST_CONFIG
    {[ "hymn.csv" := Bytes (String.concat "," ["A"; "B C"]) ]}
    "hymn" = Ok (PyStr <$> ["A"; "B C"]).
Proof.
  apply (load_csv_list_reads_back LIST_CONFIG
           {[ "hymn.csv" := Bytes (String.concat "," ["A"; "B C"]) ]} "hymn"
           {| file := "hymn.csv"; count := 2 |} ["A"; "B C"]).
  - reflexivity.
  - reflexivity.
  - repeat constructor; try discriminate; vm_compute; reflexivity.
Defined.

(** *** Carriage returns *)

Lemma universal_newlines_no_return (s : string) :
  no_return (universal_newlines s) = true.
Proof.
  assert (∀ n s, (String.length s ≤ n)%nat →
            no_return (universal_newlines s) = true) as H.
  { intros n. induction n as [|n IH]; intros [|c t] Hlen; try done.
    { cbn in Hlen. lia. }
    cbn [String.length] in Hlen. cbn [universal_newlines].
    destruct (Ascii.eqb c (Ascii.ascii_of_N 13)) eqn:Hc.
    - cbn [no_return]. destruct t as [|c' t']; [done|].
      cbn [String.length] in Hlen.
      destruct (Ascii.eqb c' (Ascii.ascii_of_N 10)); cbn [andb negb Ascii.eqb];
        apply IH; cbn [String.length]; lia.
    - cbn [no_return]. rewrite Hc. cbn [negb andb]. apply IH. lia. }
  by apply (H (String.length s)).
Qed.

Lemma split_comma_no_return (s : string) :
  no_return s = true → Forall (λ p, no_return p = true) (split_comma s).
Proof.
  induction s as [|c s IH]; [by repeat constructor|].
  cbn [no_return split_comma]. intros H.
  apply andb_true_iff in H as [Hc Hs]. specialize (IH Hs).
  destruct (Ascii.eqb c (Ascii.ascii_of_N 44)).
  - by constructor.
  - destruct (split_comma s) as [|h t] eqn:E;
      [by apply split_comma_nonempty in E|].
    apply Forall_cons in IH as [Hh Ht]. constructor; [|done].
    cbn [no_return]. by rewrite Hc, Hh.
Qed.

Lemma strip_no_return (s : string) :
  no_return s = true → no_return (strip s) = true.
Proof.
  intros Hs. destruct (trim_parts (utf8_chars s)) as (l1 & l3 & H & _).
  pose proof (utf8_chars_concat s) as Hc. rewrite H in Hc.
  rewrite !concat_empty_app in Hc. fold (strip s) in Hc.
  rewrite <- Hc, !no_return_app in Hs.
  apply andb_true_iff in Hs as [_ Hs]. by apply andb_true_iff in Hs as [Hs _].
Qed.

(** X27. No name the roster loader returns holds a carriage return: text
    mode has turned each one into a line feed before the row is split. *)
Theorem load_csv_list_no_carriage_return (config : gmap string role)
    (files : gmap string roster_file) (key : string) (names : list pyval) :
  load_csv_list config files key = Ok names →
  ∀ x, x ∈ names → ∃ s, x = PyStr s ∧ no_return s = true.
Proof.
  unfold load_csv_list, dict_get. destruct (config !! key) as [r|]; [|done].
  cbn. destruct (files !! file r) as [f|];
    [|intros [= <-] x Hx; by apply elem_of_nil in Hx].
  destruct f as [b|]; [|done]. unfold read_text.
  destruct (utf8_valid b); [|done]. cbn. intros [= <-] x Hx.
  apply list_elem_of_fmap in Hx as (s & -> & Hs).
  apply list_elem_of_filter in Hs as [Hne Hs].
  apply list_elem_of_fmap in Hs as (p & -> & Hp).
  exists (strip p). split; [done|]. apply strip_no_return.
  pose proof (split_comma_no_return (strip (universal_newlines b))) as Hall.
  rewrite Forall_forall in Hall. apply Hall; [|done].
  apply strip_no_return, universal_newlines_no_return.
Qed.

Lemma load_csv_list_no_carriage_return_witness :
  ∃ s, PyStr (chr_bytes [65; 10; 66]%N) = PyStr s ∧ no_return s = true.
Proof.
  apply (load_csv_list_no_carriage_return LIST_CONFIG
           {[ "hymn.csv" := Bytes (chr_bytes [65; 13; 66; 44; 67; 13; 10]%N) ]}
           "hymn" [PyStr (chr_bytes [65; 10; 66]%N); PyStr "C"]).
  - vm_compute. reflexivity.
  - left.
Defined.
